(** * WireWorld: a shallow embedding of [__main__.py]

    The program keeps a world as a [defaultdict] from integer coordinate
    pairs to cell states.  Reading an absent key of a [defaultdict] calls the
    default factory and STORES the value it returns, so every read of the
    world is modelled as a computation that may change the world it reads.
    Generators are modelled as lists of suspended computations: nothing runs
    until a consumer ([tuple], [any]) asks for the next element. *)

From stdpp Require Import gmap list fin_maps strings.

Open Scope Z_scope.

(** ** Cell states: the four classes [Void], [Wire], [ElecHead], [ElecTail] *)

Inductive State : Type := Void | Wire | ElecHead | ElecTail.

#[global] Instance State_eq_dec : EqDecision State.
Proof. solve_decision. Defined.

#[global] Instance State_inhabited : Inhabited State := populate Void.

(** [n is ElecHead] *)
Definition is_ElecHead (n : State) : bool :=
  match n with ElecHead => true | _ => false end.

(** ** Printing and parsing constants (characters are Unicode code points) *)

Definition CHAR_VOID : N := 32%N.     (* ' ' *)
Definition CHAR_WIRE : N := 9608%N.   (* FULL BLOCK, U+2588 *)
Definition CHAR_HEAD : N := 9618%N.   (* MEDIUM SHADE, U+2592 *)
Definition CHAR_TAIL : N := CHAR_WIRE.

Definition CHARS_VOID : list N := CHAR_VOID :: [32; 160]%N.          (* ' ', U+00A0 *)
Definition CHARS_WIRE : list N := CHAR_WIRE :: [35; 64; 37]%N.       (* #@% *)
Definition CHARS_HEAD : list N := CHAR_HEAD :: [43; 63; 41; 62]%N.   (* +?)> *)
Definition CHARS_TAIL : list N := CHAR_TAIL :: [45; 46; 40; 60]%N.   (* -.(< *)

(** The letter a state prints as (the metaclass keyword [letter]). *)
Definition letter (cls : State) : N :=
  match cls with
  | Void => CHAR_VOID
  | Wire => CHAR_WIRE
  | ElecHead => CHAR_HEAD
  | ElecTail => CHAR_TAIL
  end.

(** ** Exceptions *)

Inductive exn : Type := ValueError.

(** [type(e).__name__]: the name of the class of an exception.  The program
    defines no exception class of its own; the only exception its own code
    gives rise to is the built-in [ValueError], raised by [max]. *)
Definition class_name (e : exn) : string :=
  match e with ValueError => "ValueError" end.

Definition result (A : Type) : Type := (exn + A)%type.
Definition OK {A} (a : A) : result A := inr a.
Definition raise {A} (e : exn) : result A := inl e.

(** ** The world object *)

(** An instance of [World]: the dictionary it is, and its attribute
    [maxcoords], set once by [__init__].  The default factory is
    [lambda: Void] at every place the program builds a world. *)
Record World : Type := mkWorld {
  items : gmap (Z * Z) State;
  maxcoords : Z * Z
}.

(** Computations over the world they are called on. *)
Definition M (A : Type) : Type := World → A * World.

Definition ret {A} (a : A) : M A := λ w, (a, w).
Definition bind {A B} (m : M A) (k : A → M B) : M B :=
  λ w, let '(a, w') := m w in k a w'.

Notation "'let*' x ':=' m 'in' k" := (bind m (λ x, k))
  (at level 10, x pattern, m at level 100, k at level 200).

(** A generator: its elements, each still to be computed. *)
Definition Gen (A : Type) : Type := list (M A).

(** [(f x for x in g)] *)
Definition genexpr {A B} (f : A → B) (g : Gen A) : Gen B :=
  (λ m, let* x := m in ret (f x)) <$> g.

(** [tuple(g)]: runs the generator to its end. *)
Fixpoint tuple {A} (g : Gen A) : M (list A) :=
  match g with
  | [] => ret []
  | m :: g' => let* a := m in let* l := tuple g' in ret (a :: l)
  end.

(** [any(g)]: stops at the first true element. *)
Fixpoint any (g : Gen bool) : M bool :=
  match g with
  | [] => ret false
  | m :: g' => let* b := m in if b then ret true else any g'
  end.

(** [itertools.product(l1, l2)]: the last index moves fastest. *)
Definition product {A B} (l1 : list A) (l2 : list B) : list (A * B) :=
  a ← l1; (λ b, (a, b)) <$> l2.

(** [range(n)] *)
Definition range (n : Z) : list Z := Z.of_nat <$> seq 0 (Z.to_nat n).

(** [{k: v for k, v in l}]: a later entry replaces an earlier one. *)
Definition dict {K V} `{Countable K} (l : list (K * V)) : gmap K V :=
  foldl (λ d kv, <[kv.1 := kv.2]> d) ∅ l.

(** [world[c]]: [defaultdict.__getitem__], with [__missing__] storing the
    default for an absent key. *)
Definition getitem (c : Z * Z) : M State :=
  λ w, match items w !! c with
       | Some s => (s, w)
       | None => (Void, mkWorld (<[c := Void]> (items w)) (maxcoords w))
       end.

(** [World.neighbors] (a generator; [world] is the state of [M]). *)
Definition neighbors (center : Z * Z) : Gen State :=
  let '(x, y) := center in
  (λ '(i, j), getitem (x + i, y + j)) <$>
    filter (λ '(i, j), j ≠ 0 ∨ i ≠ 0) (product [-1; 0; 1] [-1; 0; 1]).

(** ** The transition rule: [next_state] of each class *)

(** [l.count(True)] *)
Definition count_True (l : list bool) : Z := Z.of_nat (length (filter (λ b, b = true) l)).

Definition next_state (cls : State) (neighbors : Gen State) : M State :=
  match cls with
  | Void => ret Void
  | Wire =>
      let* t := tuple (genexpr is_ElecHead neighbors) in
      if bool_decide (count_True t ∈ [1; 2]) then ret ElecHead else ret Wire
  | ElecHead => ret ElecTail
  | ElecTail => ret Wire
  end.

(** ** Building a world *)

(** [max] of a sequence; [ValueError] on an empty one. *)
Definition max_of (l : list Z) : result Z :=
  match l with
  | [] => raise ValueError
  | a :: l' => OK (foldl Z.max a l')
  end.

(** [World.__maxcoords], on the dictionary of the world. *)
Definition __maxcoords (d : gmap (Z * Z) State) : result (Z * Z) :=
  match max_of ((map_to_list d).*1.*1) with
  | inl e => raise e
  | inr mx =>
      match max_of ((map_to_list d).*1.*2) with
      | inl e => raise e
      | inr my => OK (mx, my)
      end
  end.

(** The entries of the comprehension of [World.__tabletodict]:
    [(x, y): table[x][y]] for [x] in [range(len(table))] and [y] in
    [range(len(table[x]))]. *)
Definition table_items (table : list (list State)) : list ((Z * Z) * State) :=
  x ← seq 0 (length table);
  y ← seq 0 (length (table !!! x));
  [((Z.of_nat x, Z.of_nat y), (table !!! x) !!! y)].

(** [World.__tabletodict] *)
Definition __tabletodict (table : list (list State)) : gmap (Z * Z) State :=
  dict (table_items table).

(** The argument of [World(...)]: a [defaultdict], or a table of rows. *)
Inductive table_arg : Type :=
  | Defaultdict (d : gmap (Z * Z) State)
  | Table (t : list (list State)).

(** The first two statements of [World.__init__]: make the table a
    dictionary. *)
Definition table_dict (table : table_arg) : gmap (Z * Z) State :=
  match table with
  | Defaultdict d => d
  | Table t => __tabletodict t
  end.

(** [World.__init__] *)
Definition World_init (table : table_arg) : result World :=
  let d := table_dict table in
  match __maxcoords d with
  | inl e => raise e
  | inr mc => OK (mkWorld d mc)
  end.

(** ** The engine *)

(** The comprehension of [World.next], one suspended entry per item:
    [coords: state.next_state(world.neighbors(coords))]. *)
Definition next_entries (snapshot : list ((Z * Z) * State)) : Gen ((Z * Z) * State) :=
  (λ '(coords, state),
     let* s := next_state state (neighbors coords) in ret (coords, s)) <$> snapshot.

(** [World.next]: [tuple(world.items())] is taken first; the comprehension
    then reads [world] through [neighbors], and its dictionary goes to
    [World].  The value is what [next] returns or raises; the state is the
    world it was called on, as the reads left it.  (The items come in the
    order of [map_to_list], not in the order of insertion: the entries only
    read, so their values do not depend on it.) *)
Definition next : M (result World) :=
  λ world,
    let snapshot := map_to_list (items world) in
    (let* l := tuple (next_entries snapshot) in
     ret (World_init (Defaultdict (dict l)))) world.

(** [World.__iter__] *)
Definition __iter__ (world : World) : Gen ((Z * Z) * State) :=
  let '(maxx, maxy) := maxcoords world in
  (λ c, let* s := getitem c in ret (c, s)) <$>
    product (range (maxx + 1)) (range (maxy + 1)).

(** [World.have_current] *)
Definition have_current : M bool :=
  λ world, any (genexpr (λ '(_, state), is_ElecHead state) (__iter__ world)) world.

(** ** The loader *)

(** The dictionary [wireclass] of [World.read]. *)
Definition wireclass : gmap N State :=
  dict ('(cls, letters) ← [(Wire, CHARS_WIRE); (Void, CHARS_VOID);
                           (ElecHead, CHARS_HEAD); (ElecTail, CHARS_TAIL)];
        (λ letter, (letter, cls)) <$> letters).

(** [World.read], on the lines of the file. *)
Definition read (fd : list (list N)) : result World :=
  let tupleworld := (λ line : list N, omap (λ char, wireclass !! char) line) <$> fd in
  World_init (Table tupleworld).

(** ** The renderer *)

(** [str(cls)]: [Printable.__str__], the letter of the class. *)
Definition str_State (cls : State) : list N := [letter cls].

(** [s * n] for a string [s]: the empty string when [n] is not positive. *)
Definition str_mul (s : list N) (n : Z) : list N := mjoin (replicate (Z.to_nat n) s).

(** [for a in g: s = body(a, s)], for a body that only computes. *)
Fixpoint for_in {A S} (g : Gen A) (body : A → S → S) (s : S) : M S :=
  match g with
  | [] => ret s
  | m :: g' => let* a := m in for_in g' body (body a s)
  end.

(** The body of the loop of [World.__str__], on the variables [ret] (here
    [text]) and [old_x]. *)
Definition __str___body : (Z * Z) * State → list N * Z → list N * Z :=
  λ '((x, _), state) '(text, old_x),
    let '(text, old_x) :=
      if decide (old_x ≠ x) then (text ++ [124; 10; 124]%N, x) else (text, old_x) in
    (text ++ str_State state, old_x).

(** [World.__str__]: the rule is made of U+2014, the bars are [|]. *)
Definition __str__ : M (list N) :=
  λ world,
    let '(_, maxy) := maxcoords world in
    let text := str_mul [8212%N] (maxy + 2) ++ [10; 124]%N in
    let old_x := 0 in
    (let* (text, _) := for_in (__iter__ world) __str___body (text, old_x) in
     ret (text ++ [124; 10]%N ++ str_mul [8212%N] (maxy + 2) ++ [10%N])) world.

(** ** The main program, for one circuit *)

(** ['PLAYING: '] *)
Definition PLAYING : list N := [80; 76; 65; 89; 73; 78; 71; 58; 32]%N.

(** [user_show()]: what its two [print]s are given, [doc] being
    [func.__doc__] ([time.sleep] changes nothing that is modelled). *)
Definition user_show (doc : list N) : M (list (list N)) :=
  let* text := __str__ in ret [PLAYING ++ doc; text].

(** The [while world.have_current] loop, for at most [fuel] turns (the
    program sets no bound): what was printed, and how the loop ended when it
    did, on the world without current it stopped at or on the exception of
    [World.next].  Each turn binds [world] to a new world; the one before is
    dropped. *)
Fixpoint while_have_current (fuel : nat) (doc : list N) (world : World)
  : list (list N) * option (result World) :=
  match fuel with
  | O => ([], None)
  | S fuel' =>
      let '(current, world) := have_current world in
      if current then
        match (next world).1 with
        | inl e => ([], Some (raise e))
        | inr world =>
            let '(out, world) := user_show doc world in
            let '(outs, r) := while_have_current fuel' doc world in
            (out ++ outs, r)
        end
      else ([], Some (OK world))
  end.

(** The body of the [for func in ...] loop, from the world [func()]
    returned. *)
Definition play (fuel : nat) (doc : list N) (world : World)
  : list (list N) * option (result World) :=
  let '(out, world) := user_show doc world in
  let '(outs, r) := while_have_current fuel doc world in
  (out ++ outs, r).

(** * Reading a world *)

(** The state read at [c]: the stored one, [Void] where none is stored. *)
Definition state_at (w : World) (c : Z * Z) : State := default Void (items w !! c).

(** [w'] is [w] after some reads: nothing stored is lost or changed, and
    whatever is new is [Void]. *)
Record grown (w w' : World) : Prop := mkGrown {
  grown_maxcoords : maxcoords w' = maxcoords w;
  grown_kept : ∀ c s, items w !! c = Some s → items w' !! c = Some s;
  grown_new : ∀ c s, items w !! c = None → items w' !! c = Some s → s = Void
}.

Definition same_reading (w w' : World) : Prop :=
  maxcoords w = maxcoords w' ∧ ∀ c, state_at w c = state_at w' c.

(** A computation that only reads: it leaves a grown world, and its value
    depends on the world through [state_at] and [maxcoords] alone. *)
Definition Reader {A} (m : M A) : Prop :=
  ∀ w, grown w (m w).2 ∧ ∀ w', same_reading w w' → (m w').1 = (m w).1.

(** ** The automaton, without the dictionary *)

(** The states read around a coordinate, in the order of [World.neighbors]. *)
Definition around (w : World) (c : Z * Z) : list State :=
  let '(x, y) := c in
  [state_at w (x - 1, y - 1); state_at w (x - 1, y); state_at w (x - 1, y + 1);
   state_at w (x, y - 1); state_at w (x, y + 1);
   state_at w (x + 1, y - 1); state_at w (x + 1, y); state_at w (x + 1, y + 1)].

(** The number of heads among some states. *)
Definition heads (ns : list State) : nat := length (filter (λ n, n = ElecHead) ns).

(** The rule of the four [next_state] methods, on the states themselves. *)
Definition rule (cls : State) (ns : list State) : State :=
  match cls with
  | Void => Void
  | Wire => if decide (heads ns = 1%nat ∨ heads ns = 2%nat) then ElecHead else Wire
  | ElecHead => ElecTail
  | ElecTail => Wire
  end.

(** [c] is one of the eight coordinates around [c0]. *)
Definition Moore (c0 c : Z * Z) : Prop :=
  c ≠ c0 ∧ Z.abs (c.1 - c0.1) ≤ 1 ∧ Z.abs (c.2 - c0.2) ≤ 1.

(** [c] lies in the rectangle [World.__iter__] goes through. *)
Definition in_box (w : World) (c : Z * Z) : Prop :=
  (0 ≤ c.1 ≤ (maxcoords w).1) ∧ (0 ≤ c.2 ≤ (maxcoords w).2).

(** Every coordinate of the rectangle is stored. *)
Definition dense (w : World) : Prop := ∀ c, in_box w c → is_Some (items w !! c).

(** The attribute [maxcoords] is that of the dictionary as it is now. *)
Definition in_sync (w : World) : Prop := __maxcoords (items w) = OK (maxcoords w).

(** A computation stores, besides what was stored, coordinates of [P] only. *)
Definition Within {A} (P : Z * Z → Prop) (m : M A) : Prop :=
  ∀ w c, is_Some (items (m w).2 !! c) → is_Some (items w !! c) ∨ P c.

(** A computation leaves [c] stored. *)
Definition Stores {A} (c : Z * Z) (m : M A) : Prop :=
  ∀ w, is_Some (items (m w).2 !! c).

(** The worlds the program can hold: loaded from a table, read, stepped. *)
Inductive reachable : World → Prop :=
  | reachable_init t G : World_init (Table t) = OK G → reachable G
  | reachable_read G G' : reachable G → grown G G' → reachable G'
  | reachable_next G G' : reachable G → (next G).1 = OK G' → reachable G'.

(** Every stored state other than [Void] lies in the rectangle. *)
Definition tidy (w : World) : Prop :=
  ∀ c s, items w !! c = Some s → s ≠ Void → in_box w c.

(** What the main program keeps true of the world it holds: it is one the
    program can hold, its [maxcoords] is up to date, and nothing is stored
    outside the rectangle. *)
Definition framed (w : World) : Prop :=
  reachable w ∧ in_sync w ∧ ∀ c, is_Some (items w !! c) → in_box w c.

(** ** Some worlds *)

(** A wire alone at the origin. *)
Definition lone_wire : World := mkWorld {[ (0, 0) := Wire ]} (0, 0).

(** The strip of one row: a wire, a head, a tail; and the strip after it. *)
Definition strip : World :=
  mkWorld (dict [((0, 0), Wire); ((0, 1), ElecHead); ((0, 2), ElecTail)]) (0, 2).
Definition strip_next : World :=
  mkWorld (dict [((0, 0), ElecHead); ((0, 1), ElecTail); ((0, 2), Wire)]) (0, 2).

(** The world of the table with rows [Wire] and [Void, ElecHead]: the
    coordinate (0,1) lies inside its bounding box and is not stored. *)
Definition ragged : World :=
  mkWorld (dict [((0, 0), Wire); ((1, 0), Void); ((1, 1), ElecHead)]) (1, 1).

(** A head stored at a coordinate with a negative component. *)
Definition negative_head : World := mkWorld {[ (-1, 0) := ElecHead ]} (-1, 0).

(** * Properties *)

(** ** Computations that only read *)

Section Readers.

Lemma grown_refl w : grown w w.
Proof. split; [done | done | congruence]. Qed.

Lemma grown_trans w1 w2 w3 : grown w1 w2 → grown w2 w3 → grown w1 w3.
Proof.
  intros [Hm1 Hk1 Hn1] [Hm2 Hk2 Hn2]. split.
  - congruence.
  - eauto.
  - intros c s Hnone Hs. destruct (items w2 !! c) as [s2|] eqn:E2.
    + pose proof (Hn1 c s2 Hnone E2) as ->.
      apply Hk2 in E2. congruence.
    + eauto.
Qed.

Lemma same_reading_refl w : same_reading w w.
Proof. by split. Qed.

Lemma same_reading_sym w w' : same_reading w w' → same_reading w' w.
Proof. intros [? ?]. by split. Qed.

Lemma same_reading_trans w1 w2 w3 :
  same_reading w1 w2 → same_reading w2 w3 → same_reading w1 w3.
Proof. intros [? H1] [? H2]. split; [congruence|]. intros c. by rewrite H1. Qed.

Lemma grown_same_reading w w' : grown w w' → same_reading w w'.
Proof.
  intros [Hm Hk Hn]. split; [done|]. intros c. unfold state_at.
  destruct (items w !! c) as [s|] eqn:E.
  - by rewrite (Hk _ _ E).
  - destruct (items w' !! c) as [s'|] eqn:E'; [|done].
    by rewrite (Hn _ _ E E').
Qed.

Lemma bind_run {A B} (m : M A) (k : A → M B) w :
  bind m k w = k (m w).1 (m w).2.
Proof. unfold bind. by destruct (m w). Qed.

Lemma Reader_ret {A} (a : A) : Reader (ret a).
Proof. intros w. split; [apply grown_refl | done]. Qed.

Lemma getitem_value c w : (getitem c w).1 = state_at w c.
Proof. unfold getitem, state_at. by destruct (items w !! c). Qed.

Lemma getitem_grown c w : grown w (getitem c w).2.
Proof.
  unfold getitem. destruct (items w !! c) as [s|] eqn:E; [apply grown_refl|].
  split; simpl; [done | |].
  - intros c' s Hs. rewrite lookup_insert_ne; [done | congruence].
  - intros c' s Hnone. rewrite lookup_insert. case_decide; congruence.
Qed.

Lemma Reader_getitem c : Reader (getitem c).
Proof.
  intros w. split; [apply getitem_grown|].
  intros w' [_ H]. by rewrite !getitem_value.
Qed.

Lemma Reader_bind {A B} (m : M A) (k : A → M B) :
  Reader m → (∀ a, Reader (k a)) → Reader (bind m k).
Proof.
  intros Hm Hk w. rewrite bind_run.
  destruct (Hm w) as [Hg Hv]. destruct (Hk (m w).1 (m w).2) as [Hg' Hv'].
  split; [by eapply grown_trans|].
  intros w' Hsame. rewrite bind_run, (Hv w' Hsame). apply Hv'.
  destruct (Hm w') as [Hgw' _].
  eapply same_reading_trans; [apply same_reading_sym, grown_same_reading, Hg|].
  eapply same_reading_trans; [apply Hsame|]. by apply grown_same_reading.
Qed.

Lemma Reader_genexpr {A B} (f : A → B) (g : Gen A) :
  Forall Reader g → Forall Reader (genexpr f g).
Proof.
  intros Hg. unfold genexpr. apply Forall_fmap. eapply Forall_impl; [apply Hg|].
  intros m Hm. simpl. apply Reader_bind; [done|]. intros a. apply Reader_ret.
Qed.

Lemma Reader_tuple {A} (g : Gen A) : Forall Reader g → Reader (tuple g).
Proof.
  induction 1 as [|m g Hm Hg IH]; simpl; [apply Reader_ret|].
  apply Reader_bind; [done|]. intros a.
  apply Reader_bind; [done|]. intros l. apply Reader_ret.
Qed.

Lemma Reader_any (g : Gen bool) : Forall Reader g → Reader (any g).
Proof.
  induction 1 as [|m g Hm Hg IH]; simpl; [apply Reader_ret|].
  apply Reader_bind; [done|]. intros [|]; [apply Reader_ret | done].
Qed.

(** The elements a consumer gets are those each suspended read would give
    on the world as it was when the consumer started. *)
Lemma tuple_value {A} (g : Gen A) w :
  Forall Reader g → (tuple g w).1 = (λ m, (m w).1) <$> g.
Proof.
  intros Hg. induction Hg as [|m g Hm Hg IH]; [done|].
  rewrite fmap_cons, <- IH. cbn [tuple]. rewrite !bind_run. unfold ret. simpl.
  f_equal. apply (Reader_tuple g Hg w). apply grown_same_reading, Hm.
Qed.

Lemma any_value (g : Gen bool) w :
  Forall Reader g → (any g w).1 = existsb (λ m, (m w).1) g.
Proof.
  intros Hg. induction Hg as [|m g Hm Hg IH]; [done|].
  cbn [any existsb]. rewrite bind_run, <- IH. destruct (m w).1 eqn:E; [done|].
  simpl. apply (Reader_any g Hg w). apply grown_same_reading, Hm.
Qed.

Lemma tuple_genexpr {A B} (f : A → B) (g : Gen A) w :
  tuple (genexpr f g) w = (f <$> (tuple g w).1, (tuple g w).2).
Proof.
  revert w. induction g as [|m g IH]; intros w; [done|].
  unfold genexpr in *. rewrite fmap_cons. cbn [tuple].
  rewrite !bind_run, IH. by unfold ret.
Qed.

End Readers.

Create HintDb reader discriminated.
#[global] Hint Resolve Reader_ret Reader_getitem Reader_bind Reader_genexpr
  Reader_tuple Reader_any : reader.

(** ** Dictionaries, ranges and products *)

Section Containers.
Context {K V : Type} `{Countable K}.

Lemma dict_snoc (l : list (K * V)) k v : dict (l ++ [(k, v)]) = <[k := v]> (dict l).
Proof. unfold dict. by rewrite foldl_snoc. Qed.

(** The comprehension keeps, for each key, the value written last. *)
Lemma dict_list_to_map (l : list (K * V)) : dict l = list_to_map (reverse l).
Proof.
  induction l as [|[k v] l IH] using rev_ind; [done|].
  by rewrite dict_snoc, reverse_snoc, list_to_map_cons, IH.
Qed.

Lemma dict_lookup_Some (l : list (K * V)) k v :
  NoDup l.*1 → dict l !! k = Some v ↔ (k, v) ∈ l.
Proof.
  intros Hnd. rewrite dict_list_to_map, <- elem_of_list_to_map.
  - by rewrite elem_of_reverse.
  - by rewrite fmap_reverse, reverse_Permutation.
Qed.

Lemma dict_lookup_None (l : list (K * V)) k : dict l !! k = None ↔ k ∉ l.*1.
Proof.
  rewrite dict_list_to_map, <- not_elem_of_list_to_map.
  by rewrite fmap_reverse, elem_of_reverse.
Qed.

(** A comprehension over the items of a dictionary, in any order, keeping
    the keys. *)
Lemma dict_items_lookup (f : K → V → V) (d : gmap K V) (l : list (K * V)) k :
  l ≡ₚ map_to_list d →
  dict ((λ '(c, s), (c, f c s)) <$> l) !! k = f k <$> d !! k.
Proof.
  intros Hperm.
  set (l' := (λ '(c, s), (c, f c s)) <$> l).
  assert (Hfst : l'.*1 = l.*1).
  { unfold l'. rewrite <- list_fmap_compose. apply list_fmap_ext. by intros ? [? ?]. }
  destruct (d !! k) as [s|] eqn:E; simpl.
  - assert (Hnd : NoDup l'.*1).
    { rewrite Hfst, Hperm. apply NoDup_fst_map_to_list. }
    apply (dict_lookup_Some _ _ _ Hnd).
    unfold l'. apply list_elem_of_fmap. exists (k, s).
    split; [done|]. rewrite Hperm. by apply elem_of_map_to_list.
  - apply dict_lookup_None. rewrite Hfst.
    intros ([k' s] & Hk & Hin)%list_elem_of_fmap. simpl in Hk. subst k'.
    rewrite Hperm in Hin. apply elem_of_map_to_list in Hin. congruence.
Qed.

End Containers.

Lemma elem_of_range (x n : Z) : x ∈ range n ↔ 0 ≤ x < n.
Proof.
  unfold range. rewrite list_elem_of_fmap. split.
  - intros (k & -> & Hk%elem_of_seq). lia.
  - intros Hx. exists (Z.to_nat x). rewrite elem_of_seq. lia.
Qed.

Lemma elem_of_product {A B} (l1 : list A) (l2 : list B) a b :
  (a, b) ∈ product l1 l2 ↔ a ∈ l1 ∧ b ∈ l2.
Proof.
  unfold product. rewrite list_elem_of_bind. split.
  - intros (a' & (b' & Heq & Hb)%list_elem_of_fmap & Ha). by simplify_eq.
  - intros [Ha Hb]. exists a. split; [|done]. apply list_elem_of_fmap. eauto.
Qed.

(** ** The maximum of a sequence *)

Lemma foldl_max_spec (l : list Z) (a : Z) :
  let m := foldl Z.max a l in
  (m = a ∨ m ∈ l) ∧ a ≤ m ∧ ∀ x, x ∈ l → x ≤ m.
Proof.
  revert a. induction l as [|b l IH]; intros a; simpl.
  - split; [by left|]. split; [lia|]. by intros x ?%elem_of_nil.
  - destruct (IH (Z.max a b)) as (Hin & Hle & Hall). split; [|split].
    + destruct Hin as [Heq|Hin]; [|right; by right].
      rewrite Heq. destruct (Z.max_spec a b) as [[_ ->]|[_ ->]]; [right; left | by left].
    + lia.
    + intros x [->|Hx]%elem_of_cons; [lia | by apply Hall].
Qed.

Lemma max_of_spec (l : list Z) :
  match max_of l with
  | inl e => l = [] ∧ e = ValueError
  | inr m => m ∈ l ∧ ∀ x, x ∈ l → x ≤ m
  end.
Proof.
  destruct l as [|a l]; simpl; [done|].
  destruct (foldl_max_spec l a) as (Hin & Hle & Hall). split.
  - destruct Hin as [->|Hin]; [left | by right].
  - intros x [->|Hx]%elem_of_cons; [done | by apply Hall].
Qed.

Lemma __maxcoords_empty : __maxcoords ∅ = raise ValueError.
Proof. unfold __maxcoords. by rewrite map_to_list_empty. Qed.

Lemma __maxcoords_nonempty (d : gmap (Z * Z) State) :
  d ≠ ∅ →
  ∃ mx my, __maxcoords d = OK (mx, my)
    ∧ (∃ y, is_Some (d !! (mx, y))) ∧ (∃ x, is_Some (d !! (x, my)))
    ∧ ∀ x y, is_Some (d !! (x, y)) → x ≤ mx ∧ y ≤ my.
Proof.
  intros Hne. unfold __maxcoords.
  assert (Hkeys : ∀ x y, is_Some (d !! (x, y)) ↔ (x, y) ∈ (map_to_list d).*1).
  { intros x y. rewrite list_elem_of_fmap. split.
    - intros [s Hs]. exists ((x, y), s). split; [done|]. by apply elem_of_map_to_list.
    - intros ([[x' y'] s] & Heq & Hin). simpl in Heq. simplify_eq.
      apply elem_of_map_to_list in Hin. eauto. }
  pose proof (max_of_spec (map_to_list d).*1.*1) as Hx.
  pose proof (max_of_spec (map_to_list d).*1.*2) as Hy.
  destruct (max_of (map_to_list d).*1.*1) as [e|mx].
  { destruct Hx as [Hnil _]. apply fmap_nil_inv, fmap_nil_inv in Hnil.
    by apply map_to_list_empty_iff in Hnil. }
  destruct (max_of (map_to_list d).*1.*2) as [e|my].
  { destruct Hy as [Hnil _]. apply fmap_nil_inv, fmap_nil_inv in Hnil.
    by apply map_to_list_empty_iff in Hnil. }
  exists mx, my. split; [done|].
  destruct Hx as [Hxin Hxmax], Hy as [Hyin Hymax]. split; [|split].
  - apply list_elem_of_fmap in Hxin as ([x y] & -> & Hin). exists y. by apply Hkeys.
  - apply list_elem_of_fmap in Hyin as ([x y] & -> & Hin). exists x. by apply Hkeys.
  - intros x y Hs%Hkeys. split.
    + apply Hxmax. apply list_elem_of_fmap. by exists (x, y).
    + apply Hymax. apply list_elem_of_fmap. by exists (x, y).
Qed.

(** ** The engine only reads *)

Lemma neighbors_unfold (x y : Z) :
  neighbors (x, y) =
    [getitem (x + -1, y + -1); getitem (x + -1, y + 0); getitem (x + -1, y + 1);
     getitem (x + 0, y + -1); getitem (x + 0, y + 1);
     getitem (x + 1, y + -1); getitem (x + 1, y + 0); getitem (x + 1, y + 1)].
Proof. reflexivity. Qed.

Lemma Reader_neighbors (center : Z * Z) : Forall Reader (neighbors center).
Proof.
  destruct center as [x y]. unfold neighbors. apply Forall_fmap, Forall_forall.
  intros [i j] _. apply Reader_getitem.
Qed.

Lemma Reader_next_state (cls : State) (g : Gen State) :
  Forall Reader g → Reader (next_state cls g).
Proof.
  intros Hg. destruct cls; simpl; auto with reader.
  apply Reader_bind; [auto with reader|].
  intros t. case_bool_decide; auto with reader.
Qed.

Lemma Reader___iter__ (world : World) : Forall Reader (__iter__ world).
Proof.
  unfold __iter__. destruct (maxcoords world) as [maxx maxy].
  apply Forall_fmap, Forall_forall. intros c _. simpl. auto with reader.
Qed.


Lemma Reader_next_entries snapshot : Forall Reader (next_entries snapshot).
Proof.
  unfold next_entries. apply Forall_fmap, Forall_forall. intros [c s] _. simpl.
  apply Reader_bind; [apply Reader_next_state, Reader_neighbors|].
  intros s'. apply Reader_ret.
Qed.

Lemma next_run (world : World) :
  next world =
    (World_init (Defaultdict (dict (tuple (next_entries (map_to_list (items world))) world).1)),
     (tuple (next_entries (map_to_list (items world))) world).2).
Proof. unfold next. by rewrite bind_run. Qed.

Lemma next_grown (world : World) : grown world (next world).2.
Proof. rewrite next_run. simpl. apply Reader_tuple, Reader_next_entries. Qed.

(** The dictionary [World.next] hands to [World]: the state of every item,
    moved one step on from the world as it was at the call, in whatever
    order the items are taken. *)
Lemma next_entries_lookup (world : World) (snapshot : list ((Z * Z) * State)) (c : Z * Z) :
  snapshot ≡ₚ map_to_list (items world) →
  dict (tuple (next_entries snapshot) world).1 !! c
  = (λ s, (next_state s (neighbors c) world).1) <$> items world !! c.
Proof.
  intros Hperm. rewrite tuple_value by apply Reader_next_entries.
  unfold next_entries. rewrite <- list_fmap_compose.
  rewrite <- (dict_items_lookup (λ c s, (next_state s (neighbors c) world).1)
                _ snapshot c Hperm).
  f_equal. f_equal. apply list_fmap_ext. intros _ [c' s] _. simpl.
  by rewrite bind_run.
Qed.

Lemma next_dict_lookup (world : World) (c : Z * Z) :
  dict (tuple (next_entries (map_to_list (items world))) world).1 !! c
  = (λ s, (next_state s (neighbors c) world).1) <$> items world !! c.
Proof. by apply next_entries_lookup. Qed.

(** The order of [world.items()] does not show in what [World.next]
    returns. *)
Lemma next_any_order (world : World) (snapshot : list ((Z * Z) * State)) :
  snapshot ≡ₚ map_to_list (items world) →
  World_init (Defaultdict (dict (tuple (next_entries snapshot) world).1))
  = (next world).1.
Proof.
  intros Hperm. rewrite next_run. simpl. do 2 f_equal.
  apply map_eq. intros c. by rewrite next_entries_lookup, next_dict_lookup.
Qed.

Lemma World_init_Defaultdict (d : gmap (Z * Z) State) :
  d ≠ ∅ → ∃ mc, __maxcoords d = OK mc ∧ World_init (Defaultdict d) = OK (mkWorld d mc).
Proof.
  intros Hne. destruct (__maxcoords_nonempty d Hne) as (mx & my & Hmc & _).
  exists (mx, my). split; [done|]. unfold World_init. simpl. by rewrite Hmc.
Qed.

Lemma World_init_inv (table : table_arg) (w : World) :
  World_init table = OK w →
  items w = table_dict table ∧ items w ≠ ∅ ∧ __maxcoords (items w) = OK (maxcoords w).
Proof.
  unfold World_init. intros Hinit.
  destruct (__maxcoords (table_dict table)) as [e|mc] eqn:E; [done|].
  unfold OK in Hinit. injection Hinit as Hw. subst w. simpl.
  split; [done|]. split; [|done].
  intros Hempty. rewrite Hempty, __maxcoords_empty in E. done.
Qed.

Lemma next_dict_empty (world : World) :
  dict (tuple (next_entries (map_to_list (items world))) world).1 = ∅ ↔ items world = ∅.
Proof.
  split; intros Hempty; apply map_eq; intros c; rewrite lookup_empty.
  - pose proof (next_dict_lookup world c) as Hl.
    rewrite Hempty, lookup_empty in Hl. by destruct (items world !! c).
  - by rewrite next_dict_lookup, Hempty, lookup_empty.
Qed.

(** ** The step *)

(** C1.  On a world [G] with at least one stored coordinate, [World.next]
    returns a new world [G'] whose stored coordinates are exactly those of
    [G], and which stores at each of them the [next_state] of the state
    stored in [G], computed from the neighbours read in [G] as it was at the
    call: nothing written for this step is read back by it. *)
Theorem next_spec (G : World) :
  items G ≠ ∅ →
  ∃ G', (next G).1 = OK G'
    ∧ dom (items G') = dom (items G)
    ∧ ∀ c s, items G !! c = Some s →
        items G' !! c = Some (next_state s (neighbors c) G).1.
Proof.
  intros Hne. rewrite next_run. simpl.
  set (d := dict (tuple (next_entries (map_to_list (items G))) G).1).
  assert (Hd : d ≠ ∅) by (unfold d; by rewrite next_dict_empty).
  destruct (World_init_Defaultdict d Hd) as (mc & _ & Hinit).
  exists (mkWorld d mc). split; [done|]. simpl. split.
  - apply set_eq. intros c. rewrite !elem_of_dom. unfold d.
    rewrite next_dict_lookup. apply fmap_is_Some.
  - intros c s Hs. unfold d. by rewrite next_dict_lookup, Hs.
Qed.

Lemma next_spec_witness :
  items lone_wire ≠ ∅ ∧
  ∃ G', (next lone_wire).1 = OK G'
    ∧ dom (items G') = dom (items lone_wire)
    ∧ ∀ c s, items lone_wire !! c = Some s →
        items G' !! c = Some (next_state s (neighbors c) lone_wire).1.
Proof.
  assert (Hne : items lone_wire ≠ ∅) by apply map_non_empty_singleton.
  split; [exact Hne | exact (next_spec lone_wire Hne)].
Defined.

(** C6.  [World.next] fails only on a world with no stored coordinate, and
    the world it returns stores no coordinate that the world it was called
    on did not store. *)
Theorem next_keys_subseteq (G : World) :
  match (next G).1 with
  | inr G' => dom (items G') ⊆ dom (items G)
  | inl _ => items G = ∅
  end.
Proof.
  rewrite next_run. simpl.
  set (d := dict (tuple (next_entries (map_to_list (items G))) G).1).
  destruct (decide (d = ∅)) as [Hd|Hd].
  - unfold World_init. simpl. rewrite Hd, __maxcoords_empty. simpl.
    by apply next_dict_empty.
  - destruct (World_init_Defaultdict d Hd) as (mc & _ & ->). simpl.
    intros c. rewrite !elem_of_dom. unfold d.
    rewrite next_dict_lookup. by rewrite fmap_is_Some.
Qed.

(** ** The transition rule *)

Lemma count_True_is_ElecHead (ns : list State) :
  count_True (is_ElecHead <$> ns) = Z.of_nat (length (filter (λ n, n = ElecHead) ns)).
Proof.
  unfold count_True. f_equal. induction ns as [|n ns IH]; [done|].
  rewrite fmap_cons, !filter_cons.
  destruct n; simpl; repeat case_decide; simpl; congruence.
Qed.

(** Only [Wire.next_state] consumes the generator it is given. *)
Lemma next_state_world (cls : State) (g : Gen State) (w : World) :
  (next_state cls g w).2 = match cls with Wire => (tuple g w).2 | _ => w end.
Proof.
  destruct cls; try done.
  cbn [next_state]. rewrite bind_run, tuple_genexpr. cbn [fst snd].
  by case_bool_decide.
Qed.

(** C2.  [next_state] is a function of the class and of the states the
    neighbours yield: [Void] gives [Void]; [Wire] gives [ElecHead] exactly
    when one or two of them are [ElecHead], and [Wire] otherwise;
    [ElecHead] gives [ElecTail] and [ElecTail] gives [Wire], whatever the
    neighbours. *)
Theorem next_state_spec (g : Gen State) (w : World) :
  let heads := length (filter (λ n, n = ElecHead) (tuple g w).1) in
  (next_state Void g w).1 = Void
  ∧ ((next_state Wire g w).1 = ElecHead ↔ heads = 1%nat ∨ heads = 2%nat)
  ∧ (¬ (heads = 1%nat ∨ heads = 2%nat) → (next_state Wire g w).1 = Wire)
  ∧ (next_state ElecHead g w).1 = ElecTail
  ∧ (next_state ElecTail g w).1 = Wire.
Proof.
  intros heads. split; [done|]. split; [|split; [|done]].
  - cbn [next_state]. rewrite bind_run, tuple_genexpr. cbn [fst snd].
    rewrite count_True_is_ElecHead. fold heads.
    case_bool_decide as Hc; simpl.
    + split; [|done]. intros _. set_unfold in Hc. lia.
    + split; [done|]. intros Hh. exfalso. apply Hc. set_unfold. lia.
  - intros Hh. cbn [next_state]. rewrite bind_run, tuple_genexpr. cbn [fst snd].
    rewrite count_True_is_ElecHead. fold heads.
    case_bool_decide as Hc; simpl; [|done].
    exfalso. apply Hh. set_unfold in Hc. lia.
Qed.

(** ** The neighbours *)

(** C8.  [World.neighbors] yields eight states, one for each offset of
    {-1,0,1} x {-1,0,1} other than (0,0), in the order of
    [itertools.product]: at each offset the state stored there, [Void] where
    none is stored. *)
Theorem neighbors_spec (G : World) (x y : Z) :
  length (neighbors (x, y)) = 8%nat ∧
  (tuple (neighbors (x, y)) G).1 =
    [state_at G (x - 1, y - 1); state_at G (x - 1, y); state_at G (x - 1, y + 1);
     state_at G (x, y - 1); state_at G (x, y + 1);
     state_at G (x + 1, y - 1); state_at G (x + 1, y); state_at G (x + 1, y + 1)].
Proof.
  split; [done|].
  rewrite tuple_value by apply Reader_neighbors.
  rewrite neighbors_unfold. cbn [fmap list_fmap].
  rewrite !getitem_value. repeat f_equal; lia.
Qed.

(** ** The bounding box and the construction of a world *)

(** C5, as stated, fails: on the dictionary with no key the exception that
    [World.__maxcoords] raises is the built-in [ValueError] of [max], and no
    exception it raises is of a class named [EmptyGridError]. *)
Lemma __maxcoords_not_EmptyGridError :
  __maxcoords (∅ : gmap (Z * Z) State) = raise ValueError
  ∧ class_name ValueError = "ValueError"
  ∧ ¬ ∃ e, __maxcoords (∅ : gmap (Z * Z) State) = raise e
           ∧ class_name e = "EmptyGridError".
Proof.
  split; [apply __maxcoords_empty|]. split; [done|].
  intros ([] & _ & Hname). discriminate.
Qed.

(** C5, amended.  [World.__maxcoords] fails on a dictionary with no key,
    with the built-in [ValueError] of [max] on an empty sequence; on any
    other it returns the greatest first component and the greatest second
    component of the keys. *)
Theorem __maxcoords_spec (d : gmap (Z * Z) State) :
  (d = ∅ →
   ∃ e, __maxcoords d = raise e ∧ e = ValueError ∧ class_name e = "ValueError")
  ∧ (d ≠ ∅ →
     ∃ mx my, __maxcoords d = OK (mx, my)
       ∧ (∃ y, is_Some (d !! (mx, y))) ∧ (∃ x, is_Some (d !! (x, my)))
       ∧ ∀ x y, is_Some (d !! (x, y)) → x ≤ mx ∧ y ≤ my).
Proof.
  split.
  - intros ->. exists ValueError. split; [apply __maxcoords_empty | done].
  - apply __maxcoords_nonempty.
Qed.

Lemma __maxcoords_spec_witness :
  (items strip ≠ ∅ ∧
   ∃ mx my, __maxcoords (items strip) = OK (mx, my)
     ∧ (∃ y, is_Some (items strip !! (mx, y)))
     ∧ (∃ x, is_Some (items strip !! (x, my)))
     ∧ ∀ x y, is_Some (items strip !! (x, y)) → x ≤ mx ∧ y ≤ my)
  ∧ ∃ e, __maxcoords (∅ : gmap (Z * Z) State) = raise e
         ∧ e = ValueError ∧ class_name e = "ValueError".
Proof.
  assert (Hne : items strip ≠ ∅).
  { intros Hempty. apply (f_equal (λ d, d !! (0, 0))) in Hempty.
    vm_compute in Hempty. discriminate. }
  split; [split|].
  - exact Hne.
  - exact (proj2 (__maxcoords_spec (items strip)) Hne).
  - exact (proj1 (__maxcoords_spec ∅) eq_refl).
Defined.

Lemma dict_empty_iff {K V} `{Countable K} (l : list (K * V)) : dict l = ∅ ↔ l = [].
Proof.
  destruct l as [|[k v] l _] using rev_ind; [done|].
  rewrite dict_snoc. split.
  - intros Hd. by apply insert_non_empty in Hd.
  - intros Hl. by apply app_nil in Hl as [_ ?].
Qed.

(** The entries of a table: the states of its rows, at row and column. *)
Lemma elem_of_table_items (table : list (list State)) (c : Z * Z) (s : State) :
  (c, s) ∈ table_items table ↔
  ∃ (x y : nat) row,
    c = (Z.of_nat x, Z.of_nat y) ∧ table !! x = Some row ∧ row !! y = Some s.
Proof.
  unfold table_items. rewrite list_elem_of_bind. split.
  - intros (x & Hy & Hx). apply list_elem_of_bind in Hy as (y & Hc & Hy).
    apply list_elem_of_singleton in Hc. apply elem_of_seq in Hx, Hy.
    destruct (lookup_lt_is_Some_2 table x) as [row Hrow]; [lia|].
    rewrite (list_lookup_total_correct _ _ _ Hrow) in Hy, Hc.
    destruct (lookup_lt_is_Some_2 row y) as [s' Hs']; [lia|].
    rewrite (list_lookup_total_correct _ _ _ Hs') in Hc. simplify_eq.
    by exists x, y, row.
  - intros (x & y & row & -> & Hrow & Hs). exists x.
    pose proof (lookup_lt_Some _ _ _ Hrow). pose proof (lookup_lt_Some _ _ _ Hs).
    split; [|apply elem_of_seq; lia].
    apply list_elem_of_bind. exists y.
    rewrite (list_lookup_total_correct _ _ _ Hrow).
    rewrite (list_lookup_total_correct _ _ _ Hs).
    split; [apply list_elem_of_singleton; done | apply elem_of_seq; lia].
Qed.

Lemma NoDup_table_items (table : list (list State)) : NoDup (table_items table).*1.
Proof.
  apply NoDup_fmap_2_strong.
  - intros [c1 s1] [c2 s2] H1 H2 Hc. simpl in Hc. subst c2.
    apply elem_of_table_items in H1 as (x1 & y1 & row1 & Hc1 & Hrow1 & Hs1).
    apply elem_of_table_items in H2 as (x2 & y2 & row2 & Hc2 & Hrow2 & Hs2).
    assert (x1 = x2 ∧ y1 = y2) as [<- <-] by (split; simplify_eq; lia).
    congruence.
  - unfold table_items. apply NoDup_bind; [| |apply NoDup_seq].
    + intros x1 x2 e _ _ (y1 & He1%list_elem_of_singleton & _)%list_elem_of_bind
        (y2 & He2%list_elem_of_singleton & _)%list_elem_of_bind.
      simplify_eq. lia.
    + intros x _. apply NoDup_bind; [| |apply NoDup_seq].
      * intros y1 y2 e _ _ He1%list_elem_of_singleton He2%list_elem_of_singleton.
        simplify_eq. lia.
      * intros y _. apply NoDup_singleton.
Qed.

(** The dictionary of a table stores [table[x][y]] at [(x, y)]. *)
Lemma __tabletodict_lookup (table : list (list State)) (x y : nat) :
  __tabletodict table !! (Z.of_nat x, Z.of_nat y) = table !! x ≫= (.!! y).
Proof.
  unfold __tabletodict.
  destruct (table !! x ≫= (.!! y)) as [s|] eqn:E.
  - apply (dict_lookup_Some _ _ _ (NoDup_table_items table)).
    apply elem_of_table_items.
    destruct (table !! x) as [row|] eqn:Hrow; [|done]. simpl in E.
    by exists x, y, row.
  - apply dict_lookup_None.
    intros ([c s] & Hc & (x' & y' & row & Hc' & Hrow & Hs)%elem_of_table_items)%list_elem_of_fmap.
    simpl in Hc. subst c.
    assert (x = x' ∧ y = y') as [<- <-] by (split; simplify_eq; lia).
    rewrite Hrow in E. simpl in E. congruence.
Qed.

(** A table has no coordinate when every row is empty. *)
Lemma __tabletodict_empty (table : list (list State)) :
  Forall (λ row, row = []) table → __tabletodict table = ∅.
Proof.
  intros Hrows. unfold __tabletodict. apply dict_empty_iff.
  apply elem_of_nil_inv. intros [c s] (x & y & row & _ & Hrow & Hs)%elem_of_table_items.
  rewrite Forall_forall in Hrows.
  rewrite (Hrows row) in Hs by (by eapply list_elem_of_lookup_2).
  done.
Qed.

(** C10.  [World.__init__] computes [maxcoords] at once: on a dictionary
    with no key, or a table whose rows are all empty, it raises; a world it
    returns has at least one stored coordinate and the [maxcoords] of its
    dictionary; and [World.next] of a world with a stored coordinate returns
    a world with a stored coordinate. *)
Theorem World_init_nonempty :
  (∀ table, table_dict table = ∅ → World_init table = raise ValueError)
  ∧ (∀ t, Forall (λ row, row = []) t → World_init (Table t) = raise ValueError)
  ∧ (∀ table G, World_init table = OK G →
       items G ≠ ∅ ∧ __maxcoords (items G) = OK (maxcoords G))
  ∧ (∀ G, items G ≠ ∅ → ∃ G', (next G).1 = OK G' ∧ items G' ≠ ∅).
Proof.
  split; [|split; [|split]].
  - intros table Hempty. unfold World_init. by rewrite Hempty, __maxcoords_empty.
  - intros t Hrows. unfold World_init. simpl.
    by rewrite __tabletodict_empty, __maxcoords_empty.
  - intros table G Hinit. by apply World_init_inv in Hinit as (_ & ? & ?).
  - intros G Hne. rewrite next_run. simpl.
    set (d := dict (tuple (next_entries (map_to_list (items G))) G).1).
    assert (Hd : d ≠ ∅) by (unfold d; by rewrite next_dict_empty).
    destruct (World_init_Defaultdict d Hd) as (mc & _ & Hinit).
    by exists (mkWorld d mc).
Qed.

Lemma World_init_nonempty_witness :
  (World_init (Defaultdict ∅) = raise ValueError
   ∧ World_init (Table []) = raise ValueError
   ∧ World_init (Table [[]; []]) = raise ValueError)
  ∧ (World_init (Table [[Wire]]) = OK lone_wire
     ∧ items lone_wire ≠ ∅
     ∧ __maxcoords (items lone_wire) = OK (maxcoords lone_wire))
  ∧ (items lone_wire ≠ ∅
     ∧ ∃ G', (next lone_wire).1 = OK G' ∧ items G' ≠ ∅).
Proof.
  destruct World_init_nonempty as (Hempty & Hrows & Hbuilt & Hnext).
  assert (Hinit : World_init (Table [[Wire]]) = OK lone_wire) by (vm_compute; reflexivity).
  assert (Hne : items lone_wire ≠ ∅) by apply map_non_empty_singleton.
  split; [|split].
  - split; [|split].
    + apply Hempty. reflexivity.
    + apply Hrows. constructor.
    + apply Hrows. repeat constructor.
  - split; [exact Hinit | exact (Hbuilt _ _ Hinit)].
  - split; [exact Hne | exact (Hnext lone_wire Hne)].
Defined.

(** ** The strip of the scenario *)

(** C9.  The world {(0,0): Wire, (0,1): ElecHead, (0,2): ElecTail}, which
    is also the world of the one-row table [Wire, ElecHead, ElecTail], steps
    to the world {(0,0): ElecHead, (0,1): ElecTail, (0,2): Wire}. *)
Theorem next_strip :
  World_init (Defaultdict (dict [((0, 0), Wire); ((0, 1), ElecHead); ((0, 2), ElecTail)]))
    = OK strip
  ∧ World_init (Table [[Wire; ElecHead; ElecTail]]) = OK strip
  ∧ (next strip).1 = OK strip_next
  ∧ items strip_next = dict [((0, 0), ElecHead); ((0, 1), ElecTail); ((0, 2), Wire)].
Proof. repeat split; vm_compute; reflexivity. Qed.

(** ** What the reads leave behind *)

(** C3, as stated, fails: on the world [ragged], [World.next] stores the
    absent neighbour (-1,-1) of the wire at (0,0) in the world it was called
    on, and iterating over the world, or asking [have_current], stores the
    absent coordinate (0,1) of the bounding box. *)
Lemma reads_store_defaults :
  World_init (Table [[Wire]; [Void; ElecHead]]) = OK ragged
  ∧ items ragged !! (-1, -1) = None
  ∧ items (next ragged).2 !! (-1, -1) = Some Void
  ∧ items ragged !! (0, 1) = None
  ∧ items (tuple (__iter__ ragged) ragged).2 !! (0, 1) = Some Void
  ∧ items (have_current ragged).2 !! (0, 1) = Some Void.
Proof. repeat split; vm_compute; reflexivity. Qed.

Lemma have_current_grown (G : World) : grown G (have_current G).2.
Proof. unfold have_current. apply Reader_any, Reader_genexpr, Reader___iter__. Qed.

(** C3, amended.  [World.next], a full iteration over the world and
    [have_current] leave [maxcoords] as it was, keep every stored coordinate
    with its state, and store nothing but [Void] at coordinates that were
    absent: the state read at any coordinate is the same before and after. *)
Theorem reads_grow_only (G : World) :
  (grown G (next G).2 ∧ same_reading G (next G).2)
  ∧ (grown G (tuple (__iter__ G) G).2 ∧ same_reading G (tuple (__iter__ G) G).2)
  ∧ (grown G (have_current G).2 ∧ same_reading G (have_current G).2).
Proof.
  pose proof (next_grown G) as Hn.
  pose proof (proj1 (Reader_tuple _ (Reader___iter__ G) G)) as Hi.
  pose proof (have_current_grown G) as Hc.
  auto using grown_same_reading.
Qed.

(** ** Current in the world *)

Lemma existsb_fmap {A B} (f : A → B) (p : B → bool) (l : list A) :
  existsb p (f <$> l) = existsb (p ∘ f) l.
Proof. induction l as [|a l IH]; [done|]. rewrite fmap_cons. cbn [existsb]. by rewrite IH. Qed.

Lemma existsb_ext {A} (p q : A → bool) (l : list A) :
  (∀ a, p a = q a) → existsb p l = existsb q l.
Proof. intros Hpq. induction l as [|a l IH]; [done|]. simpl. by rewrite Hpq, IH. Qed.

Lemma have_current_value (G : World) :
  (have_current G).1 =
    existsb (λ c, is_ElecHead (state_at G c))
      (product (range ((maxcoords G).1 + 1)) (range ((maxcoords G).2 + 1))).
Proof.
  unfold have_current.
  rewrite any_value by apply Reader_genexpr, Reader___iter__.
  unfold genexpr, __iter__. destruct (maxcoords G) as [maxx maxy].
  rewrite !existsb_fmap. simpl. apply existsb_ext. intros c. simpl.
  by rewrite !bind_run, getitem_value.
Qed.

Lemma is_ElecHead_state_at (G : World) (c : Z * Z) :
  is_ElecHead (state_at G c) = true ↔ items G !! c = Some ElecHead.
Proof.
  unfold state_at. destruct (items G !! c) as [[]|]; simpl; split; congruence.
Qed.

(** [have_current] sees the heads stored in [0..maxx] x [0..maxy]. *)
Lemma have_current_box (G : World) :
  (have_current G).1 = true ↔
  ∃ x y, (0 ≤ x ≤ (maxcoords G).1) ∧ (0 ≤ y ≤ (maxcoords G).2)
    ∧ items G !! (x, y) = Some ElecHead.
Proof.
  rewrite have_current_value, existsb_exists. split.
  - intros ([x y] & Hin & Hhead). exists x, y.
    apply list_elem_of_In, elem_of_product in Hin as [Hx Hy].
    apply elem_of_range in Hx, Hy. apply is_ElecHead_state_at in Hhead.
    repeat split; try done; lia.
  - intros (x & y & Hx & Hy & Hhead). exists (x, y). split.
    + apply list_elem_of_In, elem_of_product. rewrite !elem_of_range. lia.
    + by apply is_ElecHead_state_at.
Qed.

(** C7.  [have_current] should be true exactly when some stored state is
    [ElecHead] (its docstring: true iff any reference in the world is a
    [ElecHead]).  It is not on the world built from the dictionary
    {(-1,0): ElecHead}: a head is stored, at a coordinate outside the
    rectangle [0..maxx] x [0..maxy] that [have_current] goes through, and
    [have_current] returns false. *)
Theorem have_current_misses_negative :
  World_init (Defaultdict {[ (-1, 0) := ElecHead ]}) = OK negative_head
  ∧ items negative_head !! (-1, 0) = Some ElecHead
  ∧ (have_current negative_head).1 = false.
Proof. repeat split; vm_compute; reflexivity. Qed.

(** ** The loader *)

(** [wireclass] is filled from [CHARS_WIRE] first and [CHARS_TAIL] last, and
    the full block is in both: the later entry stays. *)
Lemma wireclass_CHAR_WIRE : wireclass !! CHAR_WIRE = Some ElecTail.
Proof. vm_compute. reflexivity. Qed.

(** Every recognized character of every line is stored at its line and at
    its rank among the recognized characters of the line. *)
Lemma read_lookup (fd : list (list N)) (w : World) (x y : nat) (line : list N) :
  read fd = OK w → fd !! x = Some line →
  items w !! (Z.of_nat x, Z.of_nat y) = omap (λ char, wireclass !! char) line !! y.
Proof.
  unfold read. intros Hinit Hline.
  apply World_init_inv in Hinit as (-> & _). simpl.
  by rewrite __tabletodict_lookup, list_lookup_fmap, Hline.
Qed.

(** Wherever the full block stands in a file, it loads as an [ElecTail]. *)
Lemma read_CHAR_WIRE (fd : list (list N)) (w : World) (x : nat) (pre post : list N) :
  read fd = OK w → fd !! x = Some (pre ++ CHAR_WIRE :: post) →
  items w !! (Z.of_nat x, Z.of_nat (length (omap (λ char, wireclass !! char) pre)))
  = Some ElecTail.
Proof.
  intros Hinit Hline. rewrite (read_lookup _ _ _ _ _ Hinit Hline).
  rewrite omap_app. cbn [omap list_omap]. rewrite wireclass_CHAR_WIRE.
  apply list_lookup_middle. done.
Qed.

(** C4, evaluated.  A line made of the full block and [#] (and its newline,
    which is skipped) loads as an [ElecTail] at (0,0) and a [Wire] at
    (0,1): the full block does not load as a [Wire]. *)
Theorem read_full_block :
  read [[CHAR_WIRE; 35%N; 10%N]]
  = OK (mkWorld (dict [((0, 0), ElecTail); ((0, 1), Wire)]) (0, 1)).
Proof. vm_compute. reflexivity. Qed.

(** * More of the program *)

(** ** The step as an automaton *)

Lemma heads_is_ElecHead (ns : list State) :
  count_True (is_ElecHead <$> ns) = Z.of_nat (heads ns).
Proof. apply count_True_is_ElecHead. Qed.

(** What [next_state] returns on the neighbours of a coordinate. *)
Lemma next_state_value (cls : State) (c : Z * Z) (G : World) :
  (next_state cls (neighbors c) G).1 = rule cls (around G c).
Proof.
  destruct cls; try done. destruct c as [x y].
  cbn [next_state]. rewrite bind_run, tuple_genexpr. cbn [fst snd].
  rewrite tuple_value by apply Reader_neighbors.
  rewrite heads_is_ElecHead.
  rewrite neighbors_unfold. cbn [fmap list_fmap]. rewrite !getitem_value.
  replace (x + -1) with (x - 1) by lia. replace (y + -1) with (y - 1) by lia.
  rewrite !Z.add_0_r. fold (around G (x, y)). unfold rule.
  case_bool_decide as Hc; case_decide as Hd; try done.
  - exfalso. apply Hd. set_unfold in Hc. lia.
  - exfalso. apply Hc. set_unfold. lia.
Qed.

(** The world [World.next] returns, when it returns one. *)
Lemma next_returns (G : World) :
  items G ≠ ∅ →
  ∃ G', (next G).1 = OK G'
    ∧ __maxcoords (items G') = OK (maxcoords G')
    ∧ ∀ c, items G' !! c = (λ s, rule s (around G c)) <$> items G !! c.
Proof.
  intros Hne. rewrite next_run. simpl.
  set (d := dict (tuple (next_entries (map_to_list (items G))) G).1).
  assert (Hd : d ≠ ∅) by (unfold d; by rewrite next_dict_empty).
  destruct (World_init_Defaultdict d Hd) as (mc & Hmc & Hinit).
  exists (mkWorld d mc). split; [done|]. split; [done|]. simpl.
  intros c. unfold d. rewrite next_dict_lookup.
  destruct (items G !! c); simpl; [|done]. by rewrite next_state_value.
Qed.

(** X1.  Seen through the states read at the coordinates (the stored one,
    [Void] where none is stored), [World.next] is the automaton: the world
    it returns reads, at EVERY coordinate, stored or not, as the rule of
    [next_state] applied to the state read there and the eight states read
    around it in the world it was called on. *)
Theorem next_automaton (G : World) :
  items G ≠ ∅ →
  ∃ G', (next G).1 = OK G' ∧ ∀ c, state_at G' c = rule (state_at G c) (around G c).
Proof.
  intros Hne. destruct (next_returns G Hne) as (G' & Hnext & _ & Hitems).
  exists G'. split; [done|]. intros c. unfold state_at. rewrite Hitems.
  by destruct (items G !! c).
Qed.

Lemma next_automaton_witness :
  items strip ≠ ∅ ∧
  ∃ G', (next strip).1 = OK G'
    ∧ ∀ c, state_at G' c = rule (state_at strip c) (around strip c).
Proof.
  assert (Hne : items strip ≠ ∅).
  { intros Hempty. apply (f_equal (λ d, d !! (0, 0))) in Hempty.
    vm_compute in Hempty. discriminate. }
  split; [exact Hne | exact (next_automaton strip Hne)].
Defined.

Lemma heads_none (ns : list State) : Forall (λ n, n ≠ ElecHead) ns → heads ns = 0%nat.
Proof.
  unfold heads. induction 1 as [|n ns Hn _ IH]; [done|].
  rewrite filter_cons. by case_decide.
Qed.

Lemma around_Forall (P : State → Prop) (G : World) (c : Z * Z) :
  (∀ c', P (state_at G c')) → Forall P (around G c).
Proof. intros HP. destruct c as [x y]. unfold around. repeat constructor; apply HP. Qed.

Lemma in_sync_World_init (G : World) :
  in_sync G → World_init (Defaultdict (items G)) = OK G.
Proof. unfold in_sync, World_init. simpl. intros ->. by destruct G. Qed.

(** X2.  A world that stores no head and no tail is a fixed point: the
    world [World.next] returns is the world built from the same dictionary,
    and it is equal to the world itself when [maxcoords] is up to date. *)
Theorem next_fixed_point (G : World) :
  (∀ c s, items G !! c = Some s → s = Void ∨ s = Wire) →
  (next G).1 = World_init (Defaultdict (items G))
  ∧ (in_sync G → (next G).1 = OK G).
Proof.
  intros Hquiet.
  assert (Heq : (next G).1 = World_init (Defaultdict (items G))).
  { rewrite next_run. simpl. do 2 f_equal. apply map_eq. intros c.
    rewrite next_dict_lookup. destruct (items G !! c) as [s|] eqn:E; [|done].
    simpl. f_equal. rewrite next_state_value.
    destruct (Hquiet c s E) as [-> | ->]; [done|].
    unfold rule. rewrite heads_none; [case_decide; [lia | done]|].
    apply around_Forall. intros c'. unfold state_at.
    destruct (items G !! c') as [s'|] eqn:E'; simpl; [|done].
    by destruct (Hquiet c' s' E') as [-> | ->]. }
  split; [done|]. intros Hsync. by rewrite Heq, in_sync_World_init.
Qed.

Lemma next_fixed_point_witness :
  (∀ c s, items lone_wire !! c = Some s → s = Void ∨ s = Wire)
  ∧ in_sync lone_wire
  ∧ (next lone_wire).1 = World_init (Defaultdict (items lone_wire))
  ∧ (next lone_wire).1 = OK lone_wire.
Proof.
  assert (Hquiet : ∀ c s, items lone_wire !! c = Some s → s = Void ∨ s = Wire).
  { intros c s Hs. unfold lone_wire in Hs. simpl in Hs.
    apply lookup_singleton_Some in Hs as [_ <-]. by right. }
  assert (Hsync : in_sync lone_wire) by (vm_compute; reflexivity).
  split; [exact Hquiet|]. split; [exact Hsync|].
  split.
  - exact (proj1 (next_fixed_point lone_wire Hquiet)).
  - exact (proj2 (next_fixed_point lone_wire Hquiet) Hsync).
Defined.

Lemma stored_nonempty (G : World) (c : Z * Z) (s : State) :
  items G !! c = Some s → items G ≠ ∅.
Proof. intros Hs Hempty. by rewrite Hempty, lookup_empty in Hs. Qed.

(** X3.  A stored head is a tail in the next world and a wire in the one
    after, whatever is around it and whatever is read (printed, asked for
    current) between the two steps. *)
Theorem head_decays (G : World) (c : Z * Z) :
  items G !! c = Some ElecHead →
  ∃ G1, (next G).1 = OK G1 ∧ items G1 !! c = Some ElecTail
    ∧ ∀ G1', grown G1 G1' →
        ∃ G2, (next G1').1 = OK G2 ∧ items G2 !! c = Some Wire.
Proof.
  intros Hhead.
  destruct (next_returns G (stored_nonempty _ _ _ Hhead)) as (G1 & Hnext & _ & Hitems).
  assert (Htail : items G1 !! c = Some ElecTail) by (by rewrite Hitems, Hhead).
  exists G1. split; [done|]. split; [done|].
  intros G1' Hgrown. apply (grown_kept _ _ Hgrown) in Htail.
  destruct (next_returns G1' (stored_nonempty _ _ _ Htail)) as (G2 & Hnext2 & _ & Hitems2).
  exists G2. split; [done|]. by rewrite Hitems2, Htail.
Qed.

Lemma head_decays_witness :
  items strip !! (0, 1) = Some ElecHead ∧
  ∃ G1, (next strip).1 = OK G1 ∧ items G1 !! (0, 1) = Some ElecTail
    ∧ ∀ G1', grown G1 G1' →
        ∃ G2, (next G1').1 = OK G2 ∧ items G2 !! (0, 1) = Some Wire.
Proof.
  assert (Hhead : items strip !! (0, 1) = Some ElecHead) by (vm_compute; reflexivity).
  split; [exact Hhead | exact (head_decays strip (0, 1) Hhead)].
Defined.

(** ** The bounding box along the steps *)

(** [__maxcoords] looks at the keys only. *)
Lemma __maxcoords_keys (d d' : gmap (Z * Z) State) :
  (∀ c, is_Some (d !! c) ↔ is_Some (d' !! c)) → __maxcoords d = __maxcoords d'.
Proof.
  intros Hkeys. destruct (decide (d = ∅)) as [->|Hne].
  - assert (d' = ∅) as ->; [|done].
    apply map_eq. intros c. rewrite lookup_empty. apply eq_None_not_Some.
    rewrite <- Hkeys, lookup_empty. by intros [? ?].
  - assert (Hne' : d' ≠ ∅).
    { intros ->. apply Hne. apply map_eq. intros c. rewrite lookup_empty.
      apply eq_None_not_Some. rewrite Hkeys, lookup_empty. by intros [? ?]. }
    destruct (__maxcoords_nonempty d Hne) as (mx & my & -> & [y Hy] & [x Hx] & Hle).
    destruct (__maxcoords_nonempty d' Hne') as (mx' & my' & -> & [y' Hy'] & [x' Hx'] & Hle').
    apply Hkeys, Hle' in Hy, Hx. apply Hkeys, Hle in Hy', Hx'.
    unfold OK. do 2 f_equal; lia.
Qed.

Lemma in_sync_nonempty (G : World) : in_sync G → items G ≠ ∅.
Proof.
  intros Hsync Hempty. unfold in_sync in Hsync.
  by rewrite Hempty, __maxcoords_empty in Hsync.
Qed.

Lemma next_in_sync (G : World) :
  in_sync G →
  ∃ G', (next G).1 = OK G' ∧ maxcoords G' = maxcoords G ∧ in_sync G'
    ∧ ∀ c, items G' !! c = (λ s, rule s (around G c)) <$> items G !! c.
Proof.
  intros Hsync.
  destruct (next_returns G (in_sync_nonempty G Hsync)) as (G' & Hnext & Hsync' & Hitems).
  exists G'. split; [done|]. split; [|done].
  unfold in_sync in Hsync.
  rewrite (__maxcoords_keys (items G') (items G)) in Hsync'.
  - rewrite Hsync in Hsync'. unfold OK in Hsync'. by injection Hsync'.
  - intros c. rewrite Hitems. apply fmap_is_Some.
Qed.

(** X4.  When [maxcoords] is up to date in a world, [World.next] returns a
    world with the same [maxcoords], up to date again: the bounding box does
    not move from one step to the next. *)
Theorem next_keeps_maxcoords (G : World) :
  in_sync G →
  ∃ G', (next G).1 = OK G' ∧ maxcoords G' = maxcoords G ∧ in_sync G'.
Proof.
  intros Hsync. destruct (next_in_sync G Hsync) as (G' & ? & ? & ? & _).
  by exists G'.
Qed.

Lemma next_keeps_maxcoords_witness :
  in_sync strip ∧
  ∃ G', (next strip).1 = OK G' ∧ maxcoords G' = maxcoords strip ∧ in_sync G'.
Proof.
  assert (Hsync : in_sync strip) by (vm_compute; reflexivity).
  split; [exact Hsync | exact (next_keeps_maxcoords strip Hsync)].
Defined.

(** ** What the reads store *)

Lemma grown_is_Some (w w' : World) (c : Z * Z) :
  grown w w' → is_Some (items w !! c) → is_Some (items w' !! c).
Proof. intros Hg [s Hs]. exists s. by apply (grown_kept _ _ Hg). Qed.

Lemma Within_ret {A} (P : Z * Z → Prop) (a : A) : Within P (ret a).
Proof. intros w c Hc. by left. Qed.

Lemma Within_bind {A B} (P : Z * Z → Prop) (m : M A) (k : A → M B) :
  Within P m → (∀ a, Within P (k a)) → Within P (bind m k).
Proof.
  intros Hm Hk w c. rewrite bind_run. intros Hc.
  apply Hk in Hc as [Hc|Hc]; [|by right]. by apply Hm in Hc.
Qed.

Lemma Within_tuple {A} (P : Z * Z → Prop) (g : Gen A) :
  Forall (Within P) g → Within P (tuple g).
Proof.
  induction 1 as [|m g Hm _ IH]; simpl; [exact (Within_ret _ _)|].
  apply Within_bind; [done|]. intros a w c. rewrite bind_run. simpl. apply IH.
Qed.

Lemma Stores_bind_l {A B} (c : Z * Z) (m : M A) (k : A → M B) :
  Stores c m → (∀ a, Reader (k a)) → Stores c (bind m k).
Proof.
  intros Hm Hk w. rewrite bind_run.
  eapply grown_is_Some; [apply Hk | apply Hm].
Qed.

Lemma Stores_bind_r {A B} (c : Z * Z) (m : M A) (k : A → M B) :
  (∀ a, Stores c (k a)) → Stores c (bind m k).
Proof. intros Hk w. rewrite bind_run. apply Hk. Qed.

Lemma Stores_tuple {A} (c : Z * Z) (g : Gen A) (m : M A) :
  Forall Reader g → m ∈ g → Stores c m → Stores c (tuple g).
Proof.
  intros Hg Hin Hm. induction Hg as [|m0 g Hm0 Hg IH]; [by apply elem_of_nil in Hin|].
  simpl. apply elem_of_cons in Hin as [->|Hin].
  - apply Stores_bind_l; [done|]. intros a.
    apply Reader_bind; [by apply Reader_tuple|]. intros l. apply Reader_ret.
  - apply Stores_bind_r. intros a w. rewrite bind_run. simpl. by apply IH.
Qed.

Lemma Within_getitem (P : Z * Z → Prop) (c : Z * Z) : P c → Within P (getitem c).
Proof.
  intros HP w c'. unfold getitem. destruct (items w !! c) eqn:E; simpl; [by left|].
  rewrite lookup_insert. case_decide; [subst; by right | by left].
Qed.

Lemma Stores_getitem (c : Z * Z) : Stores c (getitem c).
Proof.
  intros w. unfold getitem. destruct (items w !! c) eqn:E; simpl; [by rewrite E|].
  by rewrite lookup_insert_eq.
Qed.

(** A read of a stored coordinate changes nothing. *)
Lemma getitem_stored (c : Z * Z) (w : World) :
  is_Some (items w !! c) → (getitem c w).2 = w.
Proof. intros [s Hs]. unfold getitem. by rewrite Hs. Qed.

(** The generator of [World.neighbors] reads the Moore neighbourhood. *)
Lemma elem_of_neighbors (c0 : Z * Z) (m : M State) :
  m ∈ neighbors c0 ↔ ∃ c, Moore c0 c ∧ m = getitem c.
Proof.
  destruct c0 as [x y]. unfold neighbors. rewrite list_elem_of_fmap. split.
  - intros ([i j] & -> & [Hnz Hin%elem_of_product]%list_elem_of_filter).
    exists (x + i, y + j). split; [|done]. unfold Moore. simpl.
    set_unfold. split; [|lia]. intros Heq. simplify_eq. lia.
  - intros ([a b] & (Hne & Ha & Hb) & ->). cbn [fst snd] in Ha, Hb.
    exists (a - x, b - y). split; [f_equal; f_equal; lia|].
    apply list_elem_of_filter. split.
    + destruct (decide (b - y = 0)) as [Hb0|]; [|by left]. right.
      intros Ha0. apply Hne. f_equal; lia.
    + apply elem_of_product. set_unfold. lia.
Qed.

(** X5.  [World.next] leaves stored, in the world it was called on, what
    was stored and the eight coordinates around each stored [Wire], and
    nothing else: an isolated head, a tail or a [Void] adds nothing. *)
Theorem next_footprint (G : World) (c : Z * Z) :
  is_Some (items (next G).2 !! c) ↔
  is_Some (items G !! c) ∨ ∃ c0, items G !! c0 = Some Wire ∧ Moore c0 c.
Proof.
  rewrite next_run. simpl. split.
  - revert c. apply Within_tuple. apply Forall_forall.
    intros m ([c0 s] & -> & Hin%elem_of_map_to_list)%list_elem_of_fmap.
    apply Within_bind; [|intros a; exact (Within_ret _ _)].
    destruct s; try exact (Within_ret _ _).
    cbn [next_state]. apply Within_bind; [|intros t; case_bool_decide; exact (Within_ret _ _)].
    apply Within_tuple. apply Forall_forall.
    intros m (m0 & -> & (c & Hc & ->)%elem_of_neighbors)%list_elem_of_fmap.
    apply Within_bind; [|intros a; exact (Within_ret _ _)].
    apply Within_getitem. by exists c0.
  - intros [Hc | (c0 & Hwire & Hc)].
    + eapply grown_is_Some; [|done]. apply Reader_tuple, Reader_next_entries.
    + eapply (Stores_tuple c _ _ (Reader_next_entries _)).
      * apply list_elem_of_fmap. exists (c0, Wire). split; [done|].
        by apply elem_of_map_to_list.
      * simpl. apply Stores_bind_l; [|intros a; apply Reader_ret].
        cbn [next_state].
        apply Stores_bind_l; [|intros t; case_bool_decide; apply Reader_ret].
        eapply (Stores_tuple c _ _ (Reader_genexpr _ _ (Reader_neighbors c0))).
        -- apply list_elem_of_fmap. exists (getitem c). split; [done|].
           apply elem_of_neighbors. by exists c.
        -- apply Stores_bind_l; [apply Stores_getitem | intros a; apply Reader_ret].
Qed.

(** ** Iterating over the world *)

Lemma elem_of_box (G : World) (c : Z * Z) :
  c ∈ product (range ((maxcoords G).1 + 1)) (range ((maxcoords G).2 + 1)) ↔ in_box G c.
Proof.
  destruct c as [x y]. rewrite elem_of_product, !elem_of_range.
  unfold in_box. simpl. lia.
Qed.

Lemma __iter___unfold (G : World) :
  __iter__ G =
    (λ c, let* s := getitem c in ret (c, s)) <$>
      product (range ((maxcoords G).1 + 1)) (range ((maxcoords G).2 + 1)).
Proof. unfold __iter__. by destruct (maxcoords G). Qed.

Lemma __iter___value (G : World) :
  (tuple (__iter__ G) G).1 =
    (λ c, (c, state_at G c)) <$>
      product (range ((maxcoords G).1 + 1)) (range ((maxcoords G).2 + 1)).
Proof.
  rewrite tuple_value by apply Reader___iter__.
  rewrite __iter___unfold, <- list_fmap_compose.
  apply list_fmap_ext. intros _ c _. simpl. by rewrite bind_run, getitem_value.
Qed.

Lemma __iter___footprint (G : World) (c : Z * Z) :
  is_Some (items (tuple (__iter__ G) G).2 !! c) ↔ is_Some (items G !! c) ∨ in_box G c.
Proof.
  split.
  - revert c. apply Within_tuple. apply Forall_forall.
    rewrite __iter___unfold.
    intros m (c & -> & Hc%elem_of_box)%list_elem_of_fmap.
    apply Within_bind; [|intros a; exact (Within_ret _ _)].
    by apply Within_getitem.
  - intros [Hc | Hc].
    + eapply grown_is_Some; [|done]. apply Reader_tuple, Reader___iter__.
    + eapply (Stores_tuple c _ _ (Reader___iter__ G)).
      * rewrite __iter___unfold. apply list_elem_of_fmap. exists c.
        split; [done|]. by apply elem_of_box.
      * apply Stores_bind_l; [apply Stores_getitem | intros a; apply Reader_ret].
Qed.

(** X6.  Iterating over a world to the end yields, for every coordinate of
    [0..maxx] x [0..maxy] and for no other, row by row, the coordinate with
    the state stored there, [Void] where none is stored; it leaves stored
    what was stored and every coordinate of that rectangle, nothing else. *)
Theorem __iter___spec (G : World) :
  (tuple (__iter__ G) G).1 =
    (λ c, (c, state_at G c)) <$>
      product (range ((maxcoords G).1 + 1)) (range ((maxcoords G).2 + 1))
  ∧ ∀ c, is_Some (items (tuple (__iter__ G) G).2 !! c) ↔
         is_Some (items G !! c) ∨ in_box G c.
Proof. split; [apply __iter___value | apply __iter___footprint]. Qed.

(** ** Worlds with the whole rectangle stored *)

Lemma tuple_unchanged {A} (g : Gen A) (w : World) :
  Forall (λ m, (m w).2 = w) g → (tuple g w).2 = w.
Proof.
  induction 1 as [|m g Hm _ IH]; [done|].
  cbn [tuple]. rewrite !bind_run, Hm, IH. done.
Qed.

Lemma any_unchanged (g : Gen bool) (w : World) :
  Forall (λ m, (m w).2 = w) g → (any g w).2 = w.
Proof.
  induction 1 as [|m g Hm _ IH]; [done|].
  cbn [any]. rewrite bind_run, Hm. by destruct (m w).1.
Qed.

(** A loop whose body only computes runs the generator as [tuple] does. *)
Lemma for_in_run {A S} (g : Gen A) (body : A → S → S) (s : S) (w : World) :
  for_in g body s w = (foldl (λ s a, body a s) s (tuple g w).1, (tuple g w).2).
Proof.
  revert s w. induction g as [|m g IH]; intros s w; [done|].
  cbn [for_in tuple]. rewrite !bind_run, IH. done.
Qed.

Lemma __str___world (G : World) : (__str__ G).2 = (tuple (__iter__ G) G).2.
Proof.
  unfold __str__. destruct (maxcoords G) as [maxx maxy] eqn:E.
  rewrite bind_run, for_in_run. simpl.
  by destruct (foldl _ _ _).
Qed.

Lemma __iter___unchanged (G : World) :
  dense G → Forall (λ m, (m G).2 = G) (__iter__ G).
Proof.
  intros Hdense. rewrite __iter___unfold. apply Forall_fmap, Forall_forall.
  intros c Hc%elem_of_box. simpl. rewrite bind_run. simpl.
  by apply getitem_stored, Hdense.
Qed.

Lemma dense_after___iter__ (G : World) : dense (tuple (__iter__ G) G).2.
Proof.
  intros c Hc. apply __iter___footprint. right.
  destruct (proj1 (Reader_tuple _ (Reader___iter__ G) G)) as [Hmc _ _].
  unfold in_box in *. by rewrite Hmc in Hc.
Qed.

Lemma have_current_dense (G : World) : dense G → (have_current G).2 = G.
Proof.
  intros Hdense. unfold have_current. apply any_unchanged.
  unfold genexpr. apply Forall_fmap.
  eapply Forall_impl; [apply (__iter___unchanged G Hdense)|].
  intros m Hm. simpl. by rewrite bind_run.
Qed.

(** X7.  After one full iteration every coordinate of the rectangle is
    stored; and on a world where they all are, iterating, printing and
    asking for current leave the world exactly as it was: only the first
    pass over a world changes it. *)
Theorem reads_of_dense (G : World) :
  dense (tuple (__iter__ G) G).2
  ∧ (dense G →
     (tuple (__iter__ G) G).2 = G ∧ (__str__ G).2 = G ∧ (have_current G).2 = G).
Proof.
  split; [apply dense_after___iter__|].
  intros Hdense.
  assert (Hiter : (tuple (__iter__ G) G).2 = G)
    by (by apply tuple_unchanged, __iter___unchanged).
  split; [done|]. split; [by rewrite __str___world | by apply have_current_dense].
Qed.

Lemma reads_of_dense_witness :
  dense strip
  ∧ (tuple (__iter__ strip) strip).2 = strip
  ∧ (__str__ strip).2 = strip
  ∧ (have_current strip).2 = strip.
Proof.
  assert (Hdense : dense strip).
  { intros [x y] [Hx Hy]. simpl in Hx, Hy.
    assert (x = 0) as -> by lia.
    assert (y = 0 ∨ y = 1 ∨ y = 2) as [-> | [-> | ->]] by lia;
      vm_compute; eauto. }
  split; [exact Hdense | exact (proj2 (reads_of_dense strip) Hdense)].
Defined.

(** ** Current, on the worlds the program holds *)

Lemma next_OK_inv (G G' : World) :
  (next G).1 = OK G' →
  in_sync G' ∧ ∀ c, items G' !! c = (λ s, rule s (around G c)) <$> items G !! c.
Proof.
  intros Hnext. destruct (decide (items G = ∅)) as [Hempty|Hne].
  - rewrite next_run in Hnext. simpl in Hnext.
    apply next_dict_empty in Hempty. unfold World_init in Hnext. simpl in Hnext.
    by rewrite Hempty, __maxcoords_empty in Hnext.
  - destruct (next_returns G Hne) as (G'' & Hnext' & Hsync & Hitems).
    rewrite Hnext in Hnext'. unfold OK in Hnext'. injection Hnext' as <-. done.
Qed.

Lemma in_sync_bounds (G : World) (c : Z * Z) :
  in_sync G → is_Some (items G !! c) →
  c.1 ≤ (maxcoords G).1 ∧ c.2 ≤ (maxcoords G).2.
Proof.
  unfold in_sync. intros Hsync Hc.
  assert (Hne : items G ≠ ∅).
  { intros Hempty. by rewrite Hempty, __maxcoords_empty in Hsync. }
  destruct (__maxcoords_nonempty _ Hne) as (mx & my & Hmc & _ & _ & Hle).
  rewrite Hsync in Hmc. unfold OK in Hmc. injection Hmc as ->.
  destruct c as [x y]. simpl. by apply Hle.
Qed.

Lemma tidy_init (t : list (list State)) (G : World) :
  World_init (Table t) = OK G → tidy G.
Proof.
  intros (Hitems & _ & Hsync)%World_init_inv c s Hs _.
  destruct (in_sync_bounds G c Hsync) as [Hx Hy]; [by eexists|].
  simpl in Hitems. rewrite Hitems in Hs.
  apply (dict_lookup_Some _ _ _ (NoDup_table_items t)) in Hs.
  apply elem_of_table_items in Hs as (x & y & row & -> & _).
  unfold in_box. simpl in *. lia.
Qed.

Lemma tidy_grown (G G' : World) : tidy G → grown G G' → tidy G'.
Proof.
  intros Htidy [Hmc Hkept Hnew] c s Hs Hnv.
  unfold in_box. rewrite Hmc. apply (Htidy c s); [|done].
  destruct (items G !! c) as [s0|] eqn:E.
  - apply Hkept in E. congruence.
  - by pose proof (Hnew _ _ E Hs).
Qed.

Lemma tidy_next (G G' : World) : tidy G → (next G).1 = OK G' → tidy G'.
Proof.
  intros Htidy [Hsync Hitems]%next_OK_inv c s Hs Hnv.
  destruct (in_sync_bounds G' c Hsync) as [Hx Hy]; [by eexists|].
  rewrite Hitems in Hs. destruct (items G !! c) as [s0|] eqn:E; [|done].
  simpl in Hs. injection Hs as <-.
  destruct (Htidy c s0 E) as [[Hx0 _] [Hy0 _]]; [by intros ->|].
  unfold in_box. lia.
Qed.

Lemma reachable_tidy (G : World) : reachable G → tidy G.
Proof. induction 1; eauto using tidy_init, tidy_grown, tidy_next. Qed.

(** X8.  On every world the program can hold (loaded from a table, then
    read and stepped any number of times) [have_current] is true exactly
    when some stored state is [ElecHead], as its docstring says: no head is
    ever stored outside the rectangle it goes through. *)
Theorem have_current_reachable (G : World) :
  reachable G →
  ((have_current G).1 = true ↔ ∃ c, items G !! c = Some ElecHead).
Proof.
  intros Htidy%reachable_tidy. rewrite have_current_box. split.
  - intros (x & y & _ & _ & Hhead). by exists (x, y).
  - intros ([x y] & Hhead). exists x, y.
    destruct (Htidy _ _ Hhead) as [Hx Hy]; [done|]. done.
Qed.

Lemma have_current_reachable_witness :
  reachable strip_next
  ∧ ((have_current strip_next).1 = true ↔ ∃ c, items strip_next !! c = Some ElecHead).
Proof.
  assert (Hreach : reachable strip_next).
  { apply (reachable_next strip); [|vm_compute; reflexivity].
    apply (reachable_init [[Wire; ElecHead; ElecTail]]). vm_compute; reflexivity. }
  split; [exact Hreach | exact (have_current_reachable strip_next Hreach)].
Defined.

(** ** The text of a world *)

Lemma __str___value (G : World) :
  (__str__ G).1 =
    (foldl (λ s a, __str___body a s)
       (str_mul [8212%N] ((maxcoords G).2 + 2) ++ [10; 124]%N, 0)
       ((λ c, (c, state_at G c)) <$>
          product (range ((maxcoords G).1 + 1)) (range ((maxcoords G).2 + 1)))).1
    ++ [124; 10]%N ++ str_mul [8212%N] ((maxcoords G).2 + 2) ++ [10%N].
Proof.
  unfold __str__. rewrite <- __iter___value.
  destruct (maxcoords G) as [maxx maxy] eqn:E.
  rewrite bind_run, for_in_run. simpl.
  by destruct (foldl _ _ _).
Qed.

Section Rows.
Variable st : Z * Z → State.

(** The rest of a row: [old_x] is the row already. *)
Lemma __str___row_rest (x : Z) (ys : list Z) (text : list N) :
  foldl (λ s a, __str___body a s) (text, x) ((λ y, ((x, y), st (x, y))) <$> ys)
  = (text ++ ((λ y, letter (st (x, y))) <$> ys), x).
Proof.
  revert text. induction ys as [|y ys IH]; intros text.
  - simpl. by rewrite app_nil_r.
  - rewrite !fmap_cons. cbn [foldl __str___body].
    case_decide; [done|]. rewrite IH. unfold str_State.
    by rewrite <- app_assoc.
Qed.

(** A row: the bars come first when the row is a new one. *)
Lemma __str___row (x y0 : Z) (ys : list Z) (text : list N) (old_x : Z) :
  foldl (λ s a, __str___body a s) (text, old_x)
    ((λ y, ((x, y), st (x, y))) <$> y0 :: ys)
  = (text ++ (if decide (old_x ≠ x) then [124; 10; 124]%N else [])
       ++ ((λ y, letter (st (x, y))) <$> y0 :: ys), x).
Proof.
  rewrite !fmap_cons. cbn [foldl __str___body].
  case_decide as Hd.
  - rewrite __str___row_rest. unfold str_State. by rewrite <- !app_assoc.
  - subst old_x.
    rewrite __str___row_rest. unfold str_State. by rewrite <- !app_assoc.
Qed.

Lemma product_cons {A B} (a : A) (l1 : list A) (l2 : list B) :
  product (a :: l1) l2 = ((λ b, (a, b)) <$> l2) ++ product l1 l2.
Proof. done. Qed.

(** The rows from [a] on. *)
Lemma __str___rows (y0 : Z) (ys : list Z) (n a : nat) (text : list N) (old_x : Z) :
  foldl (λ s a, __str___body a s) (text, old_x)
    ((λ c, (c, st c)) <$> product (Z.of_nat <$> seq a n) (y0 :: ys))
  = match n with
    | O => (text, old_x)
    | S n' =>
        (text ++ (if decide (old_x ≠ Z.of_nat a) then [124; 10; 124]%N else [])
           ++ ((λ y, letter (st (Z.of_nat a, y))) <$> y0 :: ys)
           ++ mjoin ((λ x, [124; 10; 124]%N ++ ((λ y, letter (st (x, y))) <$> y0 :: ys))
                       <$> (Z.of_nat <$> seq (S a) n')),
         Z.of_nat (a + n'))
    end.
Proof.
  revert a text old_x. induction n as [|n IH]; intros a text old_x; [done|].
  cbn [seq]. rewrite fmap_cons, product_cons, fmap_app, foldl_app.
  rewrite <- list_fmap_compose.
  change ((λ c, (c, st c)) ∘ (λ b, (Z.of_nat a, b)))
    with (λ y, ((Z.of_nat a, y), st (Z.of_nat a, y))).
  rewrite __str___row, IH. destruct n as [|n].
  - simpl. by rewrite app_nil_r, Nat.add_0_r.
  - rewrite (decide_True (P := Z.of_nat a ≠ Z.of_nat (S a))) by lia.
    cbn [seq]. rewrite !fmap_cons.
    cbn [mjoin list_join]. rewrite <- !app_assoc.
    do 2 f_equal. lia.
Qed.

End Rows.

Lemma product_nil_r {A B} (l1 : list A) : product l1 (@nil B) = [].
Proof. induction l1 as [|a l1 IH]; [done|]. by rewrite product_cons, IH. Qed.

Lemma join_rows (r0 : list N) (rows : list (list N)) :
  [124%N] ++ r0 ++ mjoin ((λ r, [124; 10; 124]%N ++ r) <$> rows) ++ [124; 10]%N
  = mjoin ((λ r, [124%N] ++ r ++ [124; 10]%N) <$> r0 :: rows).
Proof.
  revert r0. induction rows as [|r1 rows IH]; intros r0.
  - simpl. by rewrite app_nil_r.
  - specialize (IH r1). simpl in *. rewrite <- IH.
    rewrite <- !app_assoc. done.
Qed.

Lemma range_S (n : Z) : 0 ≤ n → range (n + 1) = Z.of_nat <$> seq 0 (S (Z.to_nat n)).
Proof. intros Hn. unfold range. do 2 f_equal. lia. Qed.

Lemma range_nil (n : Z) : n ≤ 0 → range n = [].
Proof. intros Hn. unfold range. by replace (Z.to_nat n) with O by lia. Qed.

(** X9.  The text of a world whose [maxcoords] are not negative: the rule
    of [maxy + 2] dashes, then for each row of [0..maxx] a line with a bar,
    the letters of the states read at the columns [0..maxy] of the row
    ([Void]'s where nothing is stored) and a bar, then the rule again.  When
    one of the [maxcoords] is negative the text is the two rules around one
    line of two bars. *)
Theorem __str___layout (G : World) :
  let dashes := str_mul [8212%N] ((maxcoords G).2 + 2) in
  let row := λ x, (λ y, letter (state_at G (x, y))) <$> range ((maxcoords G).2 + 1) in
  (0 ≤ (maxcoords G).1 → 0 ≤ (maxcoords G).2 →
   (__str__ G).1 =
     dashes ++ [10%N]
     ++ mjoin ((λ x, [124%N] ++ row x ++ [124; 10]%N) <$> range ((maxcoords G).1 + 1))
     ++ dashes ++ [10%N])
  ∧ ((maxcoords G).1 < 0 ∨ (maxcoords G).2 < 0 →
     (__str__ G).1 = dashes ++ [10; 124; 124; 10]%N ++ dashes ++ [10%N]).
Proof.
  intros dashes row. rewrite __str___value. fold dashes. split.
  - intros Hx Hy. subst row. rewrite (range_S _ Hx).
    destruct (range ((maxcoords G).2 + 1)) as [|y0 ys] eqn:Ey.
    { rewrite (range_S _ Hy) in Ey. done. }
    rewrite (__str___rows (state_at G)). cbn [fst].
    rewrite decide_False by (intros Hne; by apply Hne).
    set (row := λ x, (λ y, letter (state_at G (x, y))) <$> y0 :: ys).
    change ((λ y, letter (state_at G (Z.of_nat 0, y))) <$> y0 :: ys) with (row 0).
    rewrite (list_fmap_compose row (λ r, [124; 10; 124]%N ++ r)).
    rewrite (list_fmap_compose row (λ r, [124%N] ++ r ++ [124; 10]%N)).
    cbn [seq]. rewrite (fmap_cons Z.of_nat), (fmap_cons row). rewrite <- join_rows.
    rewrite <- !app_assoc. done.
  - intros Hneg.
    assert (Hbox : product (range ((maxcoords G).1 + 1)) (range ((maxcoords G).2 + 1)) = []).
    { destruct Hneg as [Hneg|Hneg].
      - by rewrite (range_nil ((maxcoords G).1 + 1)) by lia.
      - rewrite (range_nil ((maxcoords G).2 + 1)) by lia. apply product_nil_r. }
    rewrite Hbox. simpl. by rewrite <- !app_assoc.
Qed.

Lemma __str___layout_witness :
  (0 ≤ (maxcoords strip).1 ∧ 0 ≤ (maxcoords strip).2
   ∧ (__str__ strip).1 =
       str_mul [8212%N] ((maxcoords strip).2 + 2) ++ [10%N]
       ++ mjoin ((λ x, [124%N]
                   ++ ((λ y, letter (state_at strip (x, y)))
                         <$> range ((maxcoords strip).2 + 1))
                   ++ [124; 10]%N) <$> range ((maxcoords strip).1 + 1))
       ++ str_mul [8212%N] ((maxcoords strip).2 + 2) ++ [10%N])
  ∧ (((maxcoords negative_head).1 < 0 ∨ (maxcoords negative_head).2 < 0)
     ∧ (__str__ negative_head).1 =
         str_mul [8212%N] ((maxcoords negative_head).2 + 2) ++ [10; 124; 124; 10]%N
         ++ str_mul [8212%N] ((maxcoords negative_head).2 + 2) ++ [10%N]).
Proof.
  assert (Hx : 0 ≤ (maxcoords strip).1) by (simpl; lia).
  assert (Hy : 0 ≤ (maxcoords strip).2) by (simpl; lia).
  assert (Hneg : (maxcoords negative_head).1 < 0 ∨ (maxcoords negative_head).2 < 0)
    by (left; simpl; lia).
  split.
  - split; [exact Hx|]. split; [exact Hy|].
    exact (proj1 (__str___layout strip) Hx Hy).
  - split; [exact Hneg|]. exact (proj2 (__str___layout negative_head) Hneg).
Defined.

(** ** Tables and files *)

(** X10.  The dictionary of a table stores exactly the cells of the table,
    each at its row and its column: rows may have different lengths, an
    empty row gives nothing, and no coordinate is negative. *)
Theorem __tabletodict_spec (table : list (list State)) (c : Z * Z) (s : State) :
  __tabletodict table !! c = Some s ↔
  ∃ (x y : nat) row,
    c = (Z.of_nat x, Z.of_nat y) ∧ table !! x = Some row ∧ row !! y = Some s.
Proof.
  unfold __tabletodict.
  rewrite (dict_lookup_Some _ _ _ (NoDup_table_items table)).
  apply elem_of_table_items.
Qed.

(** The recognized characters of a line, as states. *)
Lemma table_empty_rows (table : list (list State)) :
  __tabletodict table = ∅ ↔ Forall (λ row, row = []) table.
Proof.
  split; [|apply __tabletodict_empty].
  intros Hempty. apply Forall_forall. intros row [x Hrow]%list_elem_of_lookup_1.
  destruct row as [|s row]; [done|]. exfalso.
  assert (Hs : __tabletodict table !! (Z.of_nat x, Z.of_nat 0) = Some s).
  { rewrite __tabletodict_lookup, Hrow. done. }
  by rewrite Hempty, lookup_empty in Hs.
Qed.

Lemma omap_nil_iff {A B} (f : A → option B) (l : list A) :
  omap f l = [] ↔ Forall (λ a, f a = None) l.
Proof.
  induction l as [|a l IH]; [done|]. cbn [omap list_omap].
  destruct (f a) eqn:E.
  - split; [done|]. intros Hall. apply Forall_cons in Hall as [? _]. congruence.
  - rewrite IH. split; [by constructor | by intros [_ ?]%Forall_cons].
Qed.

(** X11.  What [World.read] stores: the state of the [y]-th recognized
    character of line [x] at [(x, y)], and nothing else.  A character that
    is not recognized (the newline that ends a line, for one) takes no
    column, so the characters after it move left. *)
Theorem read_spec (fd : list (list N)) (w : World) (c : Z * Z) (s : State) :
  read fd = OK w →
  (items w !! c = Some s ↔
   ∃ (x y : nat) line,
     c = (Z.of_nat x, Z.of_nat y) ∧ fd !! x = Some line
     ∧ omap (λ char, wireclass !! char) line !! y = Some s).
Proof.
  unfold read. intros (-> & _)%World_init_inv. cbn [table_dict].
  unfold __tabletodict.
  rewrite (dict_lookup_Some _ _ _ (NoDup_table_items _)), elem_of_table_items.
  split.
  - intros (x & y & row & -> & Hrow & Hs).
    apply list_lookup_fmap_Some in Hrow as (line & -> & Hline).
    by exists x, y, line.
  - intros (x & y & line & -> & Hline & Hs).
    exists x, y, (omap (λ char, wireclass !! char) line).
    split; [done|]. split; [|done]. by rewrite list_lookup_fmap, Hline.
Qed.

Lemma read_spec_witness :
  read [[35; 32; 10]; [120; 43; 10]]%N
    = OK (mkWorld (dict [((0, 0), Wire); ((0, 1), Void); ((1, 0), ElecHead)]) (1, 1))
  ∧ (items (mkWorld (dict [((0, 0), Wire); ((0, 1), Void); ((1, 0), ElecHead)]) (1, 1))
       !! (1, 0) = Some ElecHead ↔
     ∃ (x y : nat) line,
       (1, 0) = (Z.of_nat x, Z.of_nat y)
       ∧ [[35; 32; 10]; [120; 43; 10]]%N !! x = Some line
       ∧ omap (λ char, wireclass !! char) line !! y = Some ElecHead).
Proof.
  assert (Hread : read [[35; 32; 10]; [120; 43; 10]]%N
    = OK (mkWorld (dict [((0, 0), Wire); ((0, 1), Void); ((1, 0), ElecHead)]) (1, 1)))
    by (vm_compute; reflexivity).
  split; [exact Hread|]. exact (read_spec _ _ (1, 0) ElecHead Hread).
Defined.

(** X12.  [World.read] raises exactly when no character of the file is
    recognized (an empty file, blank lines only, text in other characters):
    the [ValueError] of [max] on the empty world.  Otherwise it returns a
    world. *)
Theorem read_raises (fd : list (list N)) :
  (read fd = raise ValueError ↔
   Forall (λ line, Forall (λ char, wireclass !! char = None) line) fd)
  ∧ (read fd ≠ raise ValueError → ∃ w, read fd = OK w).
Proof.
  split.
  - unfold read, World_init. cbn [table_dict].
    set (table := (λ line : list N, omap (λ char, wireclass !! char) line) <$> fd).
    assert (Hrows : __tabletodict table = ∅ ↔
              Forall (λ line, Forall (λ char, wireclass !! char = None) line) fd).
    { rewrite table_empty_rows. unfold table. rewrite Forall_fmap.
      apply Forall_iff. intros line. simpl. apply omap_nil_iff. }
    rewrite <- Hrows. split.
    + destruct (decide (__tabletodict table = ∅)) as [|Hne]; [done|].
      destruct (__maxcoords_nonempty _ Hne) as (mx & my & -> & _). done.
    + intros ->. by rewrite __maxcoords_empty.
  - destruct (read fd) as [[]|w]; [done | by exists w].
Qed.

Lemma read_raises_witness :
  (Forall (λ line, Forall (λ char, wireclass !! char = None) line) [[10%N]; [120; 10]%N]
   ∧ read [[10%N]; [120; 10]%N] = raise ValueError)
  ∧ (read [[35; 10]%N] ≠ raise ValueError ∧ ∃ w, read [[35; 10]%N] = OK w).
Proof.
  assert (Hnone : Forall (λ line, Forall (λ char, wireclass !! char = None) line)
                    [[10%N]; [120; 10]%N]).
  { repeat constructor. }
  assert (Hsome : read [[35; 10]%N] ≠ raise ValueError).
  { vm_compute. discriminate. }
  split.
  - split; [exact Hnone | exact (proj2 (proj1 (read_raises _)) Hnone)].
  - split; [exact Hsome | exact (proj2 (read_raises _) Hsome)].
Defined.

(** ** Letters *)

(** X13.  The letter a state prints as is a character the loader
    recognizes, and it loads as that state, except the letter of [Wire],
    which loads as [ElecTail]; the bar, the dash of the rule and the newline
    of the text of a world are not recognized. *)
Theorem letter_wireclass (cls : State) :
  wireclass !! letter cls = Some (if decide (cls = Wire) then ElecTail else cls)
  ∧ wireclass !! 124%N = None ∧ wireclass !! 8212%N = None ∧ wireclass !! 10%N = None.
Proof. destruct cls; repeat split; vm_compute; reflexivity. Qed.

(** ** The main program *)

Lemma Within_any (P : Z * Z → Prop) (g : Gen bool) :
  Forall (Within P) g → Within P (any g).
Proof.
  induction 1 as [|m g Hm _ IH]; simpl; [exact (Within_ret _ _)|].
  apply Within_bind; [done|]. intros [|]; [exact (Within_ret _ _) | done].
Qed.

Lemma have_current_footprint (G : World) (c : Z * Z) :
  is_Some (items (have_current G).2 !! c) → is_Some (items G !! c) ∨ in_box G c.
Proof.
  unfold have_current. revert c. apply Within_any.
  unfold genexpr. rewrite __iter___unfold, <- list_fmap_compose.
  apply Forall_fmap, Forall_forall. intros c Hc%elem_of_box. simpl.
  apply Within_bind; [|intros a; exact (Within_ret _ _)].
  apply Within_bind; [|intros a; exact (Within_ret _ _)].
  by apply Within_getitem.
Qed.

Lemma tidy_no_head (G : World) :
  tidy G → (have_current G).1 = false → ∀ c, items G !! c ≠ Some ElecHead.
Proof.
  intros Htidy Hfalse [x y] Hhead.
  assert (Htrue : (have_current G).1 = true); [|congruence].
  apply have_current_box. exists x, y.
  destruct (Htidy _ _ Hhead) as [Hx Hy]; done.
Qed.

Lemma framed_init (t : list (list State)) (G : World) :
  World_init (Table t) = OK G → framed G.
Proof.
  intros Hinit. split; [by eapply reachable_init|].
  apply World_init_inv in Hinit as (Hitems & _ & Hsync). split; [done|].
  intros c Hc. destruct (in_sync_bounds G c Hsync Hc) as [Hx Hy].
  destruct Hc as [s Hs]. simpl in Hitems. rewrite Hitems in Hs.
  apply (dict_lookup_Some _ _ _ (NoDup_table_items t)) in Hs.
  apply elem_of_table_items in Hs as (x & y & row & -> & _).
  unfold in_box. simpl in *. lia.
Qed.

(** Reads that stay in the rectangle keep the frame. *)
Lemma framed_read (G G' : World) :
  framed G → grown G G' →
  (∀ c, is_Some (items G' !! c) → is_Some (items G !! c) ∨ in_box G c) →
  framed G' ∧ maxcoords G' = maxcoords G.
Proof.
  intros (Hreach & Hsync & Hbox) Hgrown Hin.
  pose proof (grown_maxcoords _ _ Hgrown) as Hmc.
  assert (Hbox' : ∀ c, is_Some (items G' !! c) → in_box G c).
  { intros c [Hc|Hc]%Hin; [by apply Hbox | done]. }
  split; [|done]. split; [by eapply reachable_read|]. split.
  - pose proof (in_sync_nonempty G Hsync) as Hne.
    assert (Hne' : items G' ≠ ∅).
    { apply map_choose in Hne as (c & s & Hs).
      eapply stored_nonempty, (grown_kept _ _ Hgrown), Hs. }
    destruct (__maxcoords_nonempty _ Hne) as (mx & my & Hmax & [y Hy] & [x Hx] & _).
    destruct (__maxcoords_nonempty _ Hne') as (mx' & my' & Hmax' & [y' Hy'] & [x' Hx'] & Hle').
    unfold in_sync in *. rewrite Hmax', Hmc. rewrite Hsync in Hmax.
    unfold OK in Hmax. injection Hmax as Hmax. rewrite Hmax.
    apply (grown_is_Some _ _ _ Hgrown), Hle' in Hy, Hx.
    apply Hbox' in Hy', Hx'. unfold in_box in Hy', Hx'. rewrite Hmax in Hy', Hx'.
    simpl in *. unfold OK. do 2 f_equal; lia.
  - intros c Hc. unfold in_box. rewrite Hmc. by apply Hbox'.
Qed.

Lemma framed___str__ (G : World) :
  framed G → framed (__str__ G).2 ∧ maxcoords (__str__ G).2 = maxcoords G.
Proof.
  intros Hframed. rewrite __str___world. apply framed_read; [done| |].
  - apply Reader_tuple, Reader___iter__.
  - intros c. apply __iter___footprint.
Qed.

Lemma framed_have_current (G : World) :
  framed G → framed (have_current G).2 ∧ maxcoords (have_current G).2 = maxcoords G.
Proof.
  intros Hframed. apply framed_read; [done| |].
  - apply have_current_grown.
  - apply have_current_footprint.
Qed.

Lemma framed_next (G : World) :
  framed G →
  ∃ G', (next G).1 = OK G' ∧ framed G' ∧ maxcoords G' = maxcoords G.
Proof.
  intros (Hreach & Hsync & Hbox).
  destruct (next_in_sync G Hsync) as (G' & Hnext & Hmc & Hsync' & Hitems).
  exists G'. split; [done|]. split; [|done].
  split; [by eapply reachable_next|]. split; [done|].
  intros c Hc. unfold in_box. rewrite Hmc. apply Hbox.
  rewrite Hitems in Hc. by apply fmap_is_Some in Hc.
Qed.

Lemma user_show_run (doc : list N) (G : World) :
  user_show doc G = ([PLAYING ++ doc; (__str__ G).1], (__str__ G).2).
Proof. unfold user_show. by rewrite bind_run. Qed.

(** The loop, from a framed world. *)
Lemma while_have_current_frames (fuel : nat) (doc : list N) (G : World) :
  framed G →
  Forall (λ text, text = PLAYING ++ doc
                  ∨ ∃ G', framed G' ∧ maxcoords G' = maxcoords G
                          ∧ text = (__str__ G').1)
    (while_have_current fuel doc G).1
  ∧ match (while_have_current fuel doc G).2 with
    | None => True
    | Some (inl _) => False
    | Some (inr G') =>
        framed G' ∧ maxcoords G' = maxcoords G ∧ ∀ c, items G' !! c ≠ Some ElecHead
    end.
Proof.
  revert G. induction fuel as [|fuel IH]; intros G Hframed; [by split|].
  cbn [while_have_current].
  destruct (framed_have_current G Hframed) as [Hframed1 Hmc1].
  destruct (have_current G) as [current G1] eqn:Ecur. cbn [snd] in Hframed1, Hmc1.
  destruct current.
  - destruct (framed_next G1 Hframed1) as (G2 & -> & Hframed2 & Hmc2).
    unfold OK. cbv beta iota. rewrite user_show_run.
    destruct (framed___str__ G2 Hframed2) as [Hframed3 Hmc3].
    destruct (IH _ Hframed3) as [Hout Hend].
    destruct (while_have_current fuel doc (__str__ G2).2) as [outs r]. simpl in *.
    assert (Hmc : maxcoords (__str__ G2).2 = maxcoords G) by congruence.
    split.
    + constructor; [by left|]. constructor.
      { right. exists G2. split; [done|]. split; [congruence | done]. }
      eapply Forall_impl; [apply Hout|]. intros text [->|(G' & ? & ? & ->)]; [by left|].
      right. exists G'. split; [done|]. split; [congruence | done].
    + destruct r as [[e|G']|]; [done| |done].
      destruct Hend as (? & ? & ?). split; [done|]. split; [congruence | done].
  - simpl. split; [constructor|]. split; [done|]. split; [done|].
    destruct Hframed as (Hreach & _).
    pose proof (tidy_no_head G (reachable_tidy G Hreach)) as Hnone.
    rewrite Ecur in Hnone. specialize (Hnone eq_refl).
    intros c Hhead. apply (Hnone c).
    pose proof (have_current_grown G) as Hgrown. rewrite Ecur in Hgrown. simpl in Hgrown.
    destruct (items G !! c) as [s|] eqn:E.
    + apply (grown_kept _ _ Hgrown) in E. congruence.
    + by pose proof (grown_new _ _ Hgrown _ _ E Hhead).
Qed.

(** X14.  The main program on a world loaded from a table, for any number
    of turns of its loop: every world it prints has the [maxcoords] of the
    first, so every frame has the same layout; [World.next] never raises;
    and if the loop ends, it ends on a world that stores no head. *)
Theorem play_frames (fuel : nat) (doc : list N) (t : list (list State)) (G : World) :
  World_init (Table t) = OK G →
  Forall (λ text, text = PLAYING ++ doc
                  ∨ ∃ G', in_sync G' ∧ maxcoords G' = maxcoords G
                          ∧ text = (__str__ G').1)
    (play fuel doc G).1
  ∧ match (play fuel doc G).2 with
    | None => True
    | Some (inl _) => False
    | Some (inr G') =>
        maxcoords G' = maxcoords G ∧ ∀ c, items G' !! c ≠ Some ElecHead
    end.
Proof.
  intros Hframed%framed_init. unfold play. rewrite user_show_run.
  destruct (framed___str__ G Hframed) as [Hframed1 Hmc1].
  destruct (while_have_current_frames fuel doc _ Hframed1) as [Hout Hend].
  destruct (while_have_current fuel doc (__str__ G).2) as [outs r]. simpl in *.
  split.
  - constructor; [by left|]. constructor.
    { right. exists G. split; [apply Hframed | done]. }
    eapply Forall_impl; [apply Hout|]. intros text [->|(G' & HG' & ? & ->)]; [by left|].
    right. exists G'. split; [apply HG'|]. split; [congruence | done].
  - destruct r as [[e|G']|]; [done| |done].
    destruct Hend as (_ & ? & ?). split; [congruence | done].
Qed.

Lemma play_frames_witness :
  World_init (Table [[Wire; ElecHead; ElecTail]]) = OK strip
  ∧ Forall (λ text, text = PLAYING ++ []
                    ∨ ∃ G', in_sync G' ∧ maxcoords G' = maxcoords strip
                            ∧ text = (__str__ G').1)
      (play 5 [] strip).1
  ∧ match (play 5 [] strip).2 with
    | None => True
    | Some (inl _) => False
    | Some (inr G') =>
        maxcoords G' = maxcoords strip ∧ ∀ c, items G' !! c ≠ Some ElecHead
    end.
Proof.
  assert (Hinit : World_init (Table [[Wire; ElecHead; ElecTail]]) = OK strip)
    by (vm_compute; reflexivity).
  split; [exact Hinit | exact (play_frames 5 [] _ strip Hinit)].
Defined.

Lemma grown_no_head (G G' : World) :
  grown G G' → (∀ c, items G !! c ≠ Some ElecHead) → ∀ c, items G' !! c ≠ Some ElecHead.
Proof.
  intros Hgrown Hnone c Hhead. destruct (items G !! c) as [s|] eqn:E.
  - pose proof (grown_kept _ _ Hgrown _ _ E) as E'. apply (Hnone c). congruence.
  - by pose proof (grown_new _ _ Hgrown _ _ E Hhead).
Qed.

Lemma no_head_no_current (G : World) :
  (∀ c, items G !! c ≠ Some ElecHead) → (have_current G).1 = false.
Proof.
  intros Hnone. apply not_true_is_false. rewrite have_current_box.
  intros (x & y & _ & _ & Hhead). by apply (Hnone (x, y)).
Qed.

(** X15.  On a world that stores no head, whatever the world, the main
    program prints the world once and its loop ends at the first test,
    without a step: one turn is enough, and the world it ends on is the one
    the printing left. *)
Theorem play_idle (fuel : nat) (doc : list N) (G : World) :
  (∀ c, items G !! c ≠ Some ElecHead) →
  play (S fuel) doc G = ([PLAYING ++ doc; (__str__ G).1], Some (OK (__str__ G).2)).
Proof.
  intros Hnone. unfold play. rewrite user_show_run. cbn [while_have_current].
  assert (Hgrown : grown G (__str__ G).2).
  { rewrite __str___world. apply Reader_tuple, Reader___iter__. }
  pose proof (no_head_no_current _ (grown_no_head _ _ Hgrown Hnone)) as Hfalse.
  assert (Hsame : (have_current (__str__ G).2).2 = (__str__ G).2).
  { apply have_current_dense. rewrite __str___world. apply dense_after___iter__. }
  destruct (have_current (__str__ G).2) as [current G1]. simpl in *.
  by rewrite Hfalse, Hsame.
Qed.

Lemma play_idle_witness :
  (∀ c, items lone_wire !! c ≠ Some ElecHead)
  ∧ play 1 [] lone_wire
    = ([PLAYING ++ []; (__str__ lone_wire).1], Some (OK (__str__ lone_wire).2)).
Proof.
  assert (Hnone : ∀ c, items lone_wire !! c ≠ Some ElecHead).
  { intros c Hhead. unfold lone_wire in Hhead. simpl in Hhead.
    apply lookup_singleton_Some in Hhead as [_ ?]. discriminate. }
  split; [exact Hnone | exact (play_idle 0 [] lone_wire Hnone)].
Defined.
